(** * LoRa Mesh TAK Python client: SLIP framing, request correlation and
      message chunking

    A shallow embedding of [lora_mesh_tak/slip.py] and of the correlation and
    chunking parts of [lora_mesh_tak/client.py], with the properties of the
    protocol stack stated and proved over it. *)

From Stdlib Require Import ZArith QArith.
From Stdlib Require Import Strings.Byte Strings.Ascii Strings.String.
From Stdlib Require Import Numbers.DecimalString Numbers.DecimalFacts Numbers.DecimalNat.
From stdpp Require Import base tactics option list gmap.

Set Default Proof Using "Type".
Local Open Scope Z_scope.

(** ** Framing: [lora_mesh_tak/slip.py] *)

Module Slip.

Abbreviation bytes := (list byte).

(** SLIP special bytes. *)
Definition SLIP_END : byte := xc0.
Definition SLIP_ESC : byte := xdb.
Definition SLIP_ESC_END : byte := xdc.
Definition SLIP_ESC_ESC : byte := xdd.

(** The two [ValueError]s that [slip_decode] raises. *)
Inductive ValueError : Type :=
| IncompleteEscape
| InvalidEscape (next_byte : byte).

(** [slip_encode]: [result] starts as [[SLIP_END]], every byte of [data]
    is appended (escaped where needed), and a closing [SLIP_END] follows. *)
Definition encode_byte (b : byte) : bytes :=
  if Byte.eqb b SLIP_END then [SLIP_ESC; SLIP_ESC_END]
  else if Byte.eqb b SLIP_ESC then [SLIP_ESC; SLIP_ESC_ESC]
  else [b].

Definition slip_encode (data : bytes) : bytes :=
  let result := [SLIP_END] in
  let result := fold_left (fun result b => result ++ encode_byte b) data result in
  result ++ [SLIP_END].

(** [slip_decode]: the [while i < len(data)] loop, with the index [i] and
    the accumulator [result] as the source has them.  Every iteration
    advances [i], so [length data] iterations always suffice; [None] is
    only what a loop cut short by [fuel] would give. *)
Fixpoint slip_decode_loop (fuel : nat) (data : bytes) (i : nat) (result : bytes)
  : option (ValueError + bytes) :=
  match data !! i with
  | None => Some (inr result)                      (* i >= len(data) *)
  | Some b =>
    match fuel with
    | O => None
    | S fuel =>
      if Byte.eqb b SLIP_ESC then
        let i := S i in
        match data !! i with
        | None => Some (inl IncompleteEscape)
        | Some next_byte =>
          if Byte.eqb next_byte SLIP_ESC_END then
            slip_decode_loop fuel data (S i) (result ++ [SLIP_END])
          else if Byte.eqb next_byte SLIP_ESC_ESC then
            slip_decode_loop fuel data (S i) (result ++ [SLIP_ESC])
          else Some (inl (InvalidEscape next_byte))
        end
      else if negb (Byte.eqb b SLIP_END) then
        slip_decode_loop fuel data (S i) (result ++ [b])
      else
        slip_decode_loop fuel data (S i) result
    end
  end.

Definition slip_decode (data : bytes) : option (ValueError + bytes) :=
  slip_decode_loop (length data) data 0 [].

(** The same walk over the bytes that remain, used to reason about the
    loop: [decode_rest (drop i data)] is what the loop appends from index
    [i] on. *)
Fixpoint decode_rest (rest : bytes) : ValueError + bytes :=
  match rest with
  | [] => inr []
  | b :: rest =>
    if Byte.eqb b SLIP_ESC then
      match rest with
      | [] => inl IncompleteEscape
      | next_byte :: rest =>
        if Byte.eqb next_byte SLIP_ESC_END then
          match decode_rest rest with
          | inr out => inr (SLIP_END :: out)
          | inl e => inl e
          end
        else if Byte.eqb next_byte SLIP_ESC_ESC then
          match decode_rest rest with
          | inr out => inr (SLIP_ESC :: out)
          | inl e => inl e
          end
        else inl (InvalidEscape next_byte)
      end
    else if negb (Byte.eqb b SLIP_END) then
      match decode_rest rest with
      | inr out => inr (b :: out)
      | inl e => inl e
      end
    else decode_rest rest
  end.

(** The accumulator [result] extended by what a walk yields. *)
Definition append_to (result : bytes) (r : ValueError + bytes) : ValueError + bytes :=
  match r with
  | inr out => inr (result ++ out)
  | inl e => inl e
  end.

(** *** The stream reader *)

Record SlipReader : Type := mkReader {
  _buffer : bytes;
  _in_packet : bool;
  _packets : list bytes;
}.

(** [SlipReader.__init__] *)
Definition new_reader : SlipReader :=
  {| _buffer := []; _in_packet := false; _packets := [] |}.

(** The body of the [for byte in data] loop of [feed].  A [ValueError] of
    [slip_decode] is caught and the buffer dropped. *)
Definition feed_byte (self : SlipReader) (b : byte) : SlipReader :=
  if Byte.eqb b SLIP_END then
    let packets :=
      if _in_packet self && negb (bool_decide (_buffer self = [])) then
        match slip_decode (_buffer self) with
        | Some (inr decoded) => _packets self ++ [decoded]
        | _ => _packets self
        end
      else _packets self in
    {| _buffer := []; _in_packet := true; _packets := packets |}
  else if _in_packet self then
    {| _buffer := _buffer self ++ [b];
       _in_packet := _in_packet self;
       _packets := _packets self |}
  else self.

Definition feed (self : SlipReader) (data : bytes) : SlipReader :=
  fold_left feed_byte data self.

(** [get_packet]: pops the head of the queue, or returns [None]. *)
Definition get_packet (self : SlipReader) : option bytes * SlipReader :=
  match _packets self with
  | p :: ps =>
    (Some p, {| _buffer := _buffer self; _in_packet := _in_packet self; _packets := ps |})
  | [] => (None, self)
  end.

Definition has_packet (self : SlipReader) : bool :=
  bool_decide (0 < length (_packets self))%nat.

Definition clear (self : SlipReader) : SlipReader :=
  {| _buffer := []; _packets := []; _in_packet := false |}.

(** The reader as [_read_loop] of the client drives it: feed what was read,
    then [get_packet] for as long as [has_packet] holds.  [n] bounds the
    number of turns of that [while]; the queue's length is enough. *)
Fixpoint get_packets (n : nat) (self : SlipReader) : list bytes * SlipReader :=
  match n with
  | O => ([], self)
  | S n =>
    if has_packet self then
      match get_packet self with
      | (Some packet_data, self) =>
        let '(rest, self) := get_packets n self in (packet_data :: rest, self)
      | (None, self) => ([], self)
      end
    else ([], self)
  end.

Definition read_chunk (state : SlipReader * list bytes) (data : bytes)
  : SlipReader * list bytes :=
  let '(self, handled) := state in
  let self := feed self data in
  let '(ready, self) := get_packets (length (_packets self)) self in
  (self, handled ++ ready).

End Slip.

(** ** The client: [lora_mesh_tak/client.py] *)

Module Client.

(** Python exceptions that the modelled methods raise or let through. *)
Inductive exn : Type :=
| ConnectionError (msg : string)
| TimeoutError (timeout : Q)
| KeyError (key : Z)
| ValueError (msg : string)
| SerialException.

(** Modelled from the spec: the generated protobuf module [serial_pb2] is
    not among the sources.  An inbound envelope carries a numeric
    [request_id] and at most one populated member of the [payload] oneof;
    the member names are those [client.py] reads.  The members' data stay
    opaque ([body]). *)
Inductive payload_kind : Type :=
| result | info | gps | neighbors | routes | roster | stats
| message_received | gps_received | neighbor_changed
| emergency_received | log.

Record FromDevice : Type := mkFromDevice {
  request_id : Z;
  payload : option payload_kind;      (* [WhichOneof("payload")] *)
  body : list byte;
}.

(** Modelled from the spec: the command oneof of [serial_pb2.ToDevice], with
    the members [client.py] builds. *)
Inductive ToDevice : Type :=
| get_info | get_gps | get_neighbors | get_routes | get_roster | get_stats
| set_gps (latitude longitude altitude : Q) (use_static : bool)
| set_node_id (node_id : string)
| send_message_request (destination text : string)
| send_gps | send_emergency (emergency_type : Z) (description : string)
| ping (destination : string) | discover | join.

Record SerialPacket : Type := mkPacket {
  packet_id : Z;
  to_device : option ToDevice;
  from_device : option FromDevice;   (* [HasField("from_device")] *)
}.

(** A registered callback is a Python callable; the model names it and
    records its invocations. *)
Definition callback := nat.

(** The serial port as the client sees it: whether it is open, whether a
    write raises, and what has been written ([slip_encode] of the
    serialized packet, kept here as the packet). *)
Record Serial : Type := mkSerial {
  is_open : bool;
  write_fails : bool;
  written : list SerialPacket;
}.

(** [threading.Event] objects live in a store ([events], one flag each)
    and are referred to by index, so that the dictionary entry and the
    caller's local variable name the same object. *)
Definition event := nat.

Record LoRaMeshClient : Type := mkClient {
  _timeout : Q;
  _serial : option Serial;
  _packet_id : Z;
  _on_message : option callback;
  _on_gps : option callback;
  _on_neighbor : option callback;
  _on_emergency : option callback;
  _on_log : option callback;
  _pending_responses : gmap Z FromDevice;
  _response_events : gmap Z event;
  events : list bool;
  invoked : list (callback * FromDevice);
}.

Definition DEFAULT_TIMEOUT : Q := 5.

(** [__init__] *)
Definition new_client (timeout : Q) : LoRaMeshClient :=
  {| _timeout := timeout; _serial := None; _packet_id := 0;
     _on_message := None; _on_gps := None; _on_neighbor := None;
     _on_emergency := None; _on_log := None;
     _pending_responses := ∅; _response_events := ∅;
     events := []; invoked := [] |}.

Definition set_serial (s : option Serial) (self : LoRaMeshClient) :=
  {| _timeout := _timeout self; _serial := s; _packet_id := _packet_id self;
     _on_message := _on_message self; _on_gps := _on_gps self;
     _on_neighbor := _on_neighbor self; _on_emergency := _on_emergency self;
     _on_log := _on_log self;
     _pending_responses := _pending_responses self;
     _response_events := _response_events self;
     events := events self; invoked := invoked self |}.

Definition set_packet_id (n : Z) (self : LoRaMeshClient) :=
  {| _timeout := _timeout self; _serial := _serial self; _packet_id := n;
     _on_message := _on_message self; _on_gps := _on_gps self;
     _on_neighbor := _on_neighbor self; _on_emergency := _on_emergency self;
     _on_log := _on_log self;
     _pending_responses := _pending_responses self;
     _response_events := _response_events self;
     events := events self; invoked := invoked self |}.

Definition set_pending_responses (m : gmap Z FromDevice) (self : LoRaMeshClient) :=
  {| _timeout := _timeout self; _serial := _serial self;
     _packet_id := _packet_id self;
     _on_message := _on_message self; _on_gps := _on_gps self;
     _on_neighbor := _on_neighbor self; _on_emergency := _on_emergency self;
     _on_log := _on_log self;
     _pending_responses := m;
     _response_events := _response_events self;
     events := events self; invoked := invoked self |}.

Definition set_response_events (m : gmap Z event) (self : LoRaMeshClient) :=
  {| _timeout := _timeout self; _serial := _serial self;
     _packet_id := _packet_id self;
     _on_message := _on_message self; _on_gps := _on_gps self;
     _on_neighbor := _on_neighbor self; _on_emergency := _on_emergency self;
     _on_log := _on_log self;
     _pending_responses := _pending_responses self;
     _response_events := m;
     events := events self; invoked := invoked self |}.

Definition set_events (l : list bool) (self : LoRaMeshClient) :=
  {| _timeout := _timeout self; _serial := _serial self;
     _packet_id := _packet_id self;
     _on_message := _on_message self; _on_gps := _on_gps self;
     _on_neighbor := _on_neighbor self; _on_emergency := _on_emergency self;
     _on_log := _on_log self;
     _pending_responses := _pending_responses self;
     _response_events := _response_events self;
     events := l; invoked := invoked self |}.

Definition set_invoked (l : list (callback * FromDevice)) (self : LoRaMeshClient) :=
  {| _timeout := _timeout self; _serial := _serial self;
     _packet_id := _packet_id self;
     _on_message := _on_message self; _on_gps := _on_gps self;
     _on_neighbor := _on_neighbor self; _on_emergency := _on_emergency self;
     _on_log := _on_log self;
     _pending_responses := _pending_responses self;
     _response_events := _response_events self;
     events := events self; invoked := l |}.

(** [is_connected]: [self._serial is not None and self._serial.is_open] *)
Definition is_connected (self : LoRaMeshClient) : bool :=
  match _serial self with
  | Some s => is_open s
  | None => false
  end.

(** [_next_packet_id] *)
Definition _next_packet_id (self : LoRaMeshClient) : Z * LoRaMeshClient :=
  let self := set_packet_id ((_packet_id self + 1) mod 0xFFFFFFFF) self in
  (_packet_id self, self).

(** [_send_packet] *)
Definition _send_packet (self : LoRaMeshClient) (packet : SerialPacket)
  : exn + LoRaMeshClient :=
  match _serial self with
  | Some s =>
    if is_open s then
      if write_fails s then inl SerialException
      else inr (set_serial
                  (Some {| is_open := is_open s; write_fails := write_fails s;
                           written := written s ++ [packet] |}) self)
    else inl (ConnectionError "Not connected to device")
  | None => inl (ConnectionError "Not connected to device")
  end.

(** [_handle_event]: the first matching branch with a callback set invokes
    it; in every other case nothing happens. *)
Definition _handle_event (self : LoRaMeshClient) (response : FromDevice)
  : LoRaMeshClient :=
  let call (cb : option callback) :=
    match cb with
    | Some f => set_invoked (invoked self ++ [(f, response)]) self
    | None => self
    end in
  match payload response with
  | Some message_received => call (_on_message self)
  | Some gps_received => call (_on_gps self)
  | Some neighbor_changed => call (_on_neighbor self)
  | Some emergency_received => call (_on_emergency self)
  | Some log => call (_on_log self)
  | _ => self
  end.

(** [_handle_packet].  [parsed] is what [ParseFromString(data)] produced,
    [None] when it raised (the [except Exception: pass]). *)
Definition _handle_packet (self : LoRaMeshClient) (parsed : option SerialPacket)
  : LoRaMeshClient :=
  match parsed with
  | None => self
  | Some packet =>
    match from_device packet with
    | None => self
    | Some response =>
      let request_id := request_id response in
      match _response_events self !! request_id with
      | Some ev =>
        let self :=
          set_pending_responses
            (<[request_id := response]> (_pending_responses self)) self in
        set_events (<[ev := true]> (events self)) self
      | None => _handle_event self response
      end
    end
  end.

(** [_send_command] blocks in [event.wait(timeout)].  The part before the
    wait and the part after it are the two atomic steps of the caller;
    the reader thread runs [_handle_packet] in between. *)

(** Up to the wait: the timeout default, the id, the packet, the new
    [Event] registered under the id, and the write.  When [_send_packet]
    raises, the [finally] clause removes the registration. *)
Definition _send_command_begin (self : LoRaMeshClient) (to_device : ToDevice)
    (timeout : option Q) : LoRaMeshClient * (exn + (Z * event * Q)) :=
  let timeout := match timeout with Some t => t | None => _timeout self end in
  let '(packet_id, self) := _next_packet_id self in
  let packet :=
    {| packet_id := packet_id; to_device := Some to_device;
       from_device := None |} in
  let ev := length (events self) in
  let self := set_events (events self ++ [false]) self in
  let self :=
    set_response_events (<[packet_id := ev]> (_response_events self)) self in
  match _send_packet self packet with
  | inl e =>
    (set_response_events (delete packet_id (_response_events self)) self, inl e)
  | inr self => (self, inr (packet_id, ev, timeout))
  end.

(** From the return of [event.wait(timeout)] on: [wait] gives the flag of
    the event, false when the timeout ran out first. *)
Definition _send_command_finish (self : LoRaMeshClient) (waiting : Z * event * Q)
  : LoRaMeshClient * (exn + FromDevice) :=
  let '(packet_id, ev, timeout) := waiting in
  let finally (self : LoRaMeshClient) :=
    set_response_events (delete packet_id (_response_events self)) self in
  match events self !! ev with
  | Some true =>
    match _pending_responses self !! packet_id with
    | Some response =>
      (finally (set_pending_responses
                  (delete packet_id (_pending_responses self)) self),
       inr response)
    | None => (finally self, inl (KeyError packet_id))
    end
  | _ => (finally self, inl (TimeoutError timeout))
  end.

(** One call of [_send_command] by a single caller: [inbound] lists what
    the reader thread parses and handles while the caller waits. *)
Definition _send_command (inbound : list (option SerialPacket))
    (self : LoRaMeshClient) (to_device : ToDevice) (timeout : option Q)
  : LoRaMeshClient * (exn + FromDevice) :=
  match _send_command_begin self to_device timeout with
  | (self, inl e) => (self, inl e)
  | (self, inr waiting) =>
    _send_command_finish (fold_left _handle_packet inbound self) waiting
  end.

(** [connect] when opening the port succeeds (the reader of the stream is
    modelled apart, in [Slip]). *)
Definition connect (self : LoRaMeshClient) : LoRaMeshClient :=
  if is_connected self then self
  else set_serial
         (Some {| is_open := true; write_fails := false; written := [] |}) self.

(** The port is open and takes writes. *)
Definition can_write (self : LoRaMeshClient) : Prop :=
  exists s, _serial self = Some s /\ is_open s = true /\ write_fails s = false.

(** Every registered event is an object of the store. *)
Definition events_allocated (self : LoRaMeshClient) : Prop :=
  forall id ev, _response_events self !! id = Some ev ->
                (ev < length (events self))%nat.

(** An inbound packet that answers the request [id]. *)
Definition replies_to (id : Z) (parsed : option SerialPacket) : Prop :=
  exists packet response,
    parsed = Some packet /\ from_device packet = Some response /\
    request_id response = id.

(** The members of the payload oneof that are events. *)
Definition is_event (kind : option payload_kind) : bool :=
  match kind with
  | Some (message_received | gps_received | neighbor_changed
         | emergency_received | log) => true
  | _ => false
  end.

(** The caller [id] is still waiting on [ev]: its registration stands, its
    event has not fired, and no other registration shares the event. *)
Definition still_waiting (id : Z) (ev : event) (self : LoRaMeshClient) : Prop :=
  _response_events self !! id = Some ev /\
  events self !! ev = Some false /\
  forall id' ev', _response_events self !! id' = Some ev' -> id' <> id -> ev' <> ev.

(** The result that a device sends back for request [id]. *)
Definition answer (id : Z) : FromDevice :=
  {| request_id := id; payload := Some result; body := [] |}.

(** [_send_command] with a device that answers while the caller waits. *)
Definition answered_command (self : LoRaMeshClient) (to_device : ToDevice)
    (timeout : option Q) : LoRaMeshClient * (exn + FromDevice) :=
  let id := (_packet_id self + 1) mod 0xFFFFFFFF in
  _send_command
    [Some {| packet_id := 0; to_device := None; from_device := Some (answer id) |}]
    self to_device timeout.

(** [_send_command] with a device that answers every request but the one
    with id [lost]. *)
Definition lossy_command (lost : Z) (self : LoRaMeshClient) (to_device : ToDevice)
    (timeout : option Q) : LoRaMeshClient * (exn + FromDevice) :=
  if (_packet_id self + 1) mod 0xFFFFFFFF =? lost
  then _send_command [] self to_device timeout
  else answered_command self to_device timeout.

(** No inbound traffic while the caller sleeps. *)
Definition idle (self : LoRaMeshClient) (secs : Q) : LoRaMeshClient := self.

(** The client after [n] further calls of [_next_packet_id]. *)
Definition after_allocations (n : N) (self : LoRaMeshClient) : LoRaMeshClient :=
  N.iter n (fun self => snd (_next_packet_id self)) self.

(** The client after [n] further calls of [_send_command] to which the
    device never answers. *)
Definition after_silent_commands (n : N) (to_device : ToDevice)
    (self : LoRaMeshClient) : LoRaMeshClient :=
  N.iter n (fun self => fst (_send_command [] self to_device None)) self.

End Client.

(** ** Text messages and their chunking: [send_message],
       [_send_split_message], [broadcast] *)

Module Messaging.
Import Client.
Local Open Scope nat_scope.

(** What a call of [send_message] does that can be observed from outside:
    the commands it hands to [_send_command] and its [time.sleep]s. *)
Inductive io : Type :=
| SendCommand (to_device : ToDevice) (timeout : option Q)
| Sleep (secs : Q).

(** [str(n)] as an f-string field renders it. *)
Definition str (n : nat) : string := NilEmpty.string_of_uint (Nat.to_uint n).

(** [text[i:j]] for [0 <= i <= j]; Python clips the slice at the end of
    the text.  Characters are those of [string]. *)
Definition slice (text : string) (i j : nat) : string := substring i (j - i) text.

(** [range(start, stop, step)] for a positive [step]. *)
Fixpoint range_from (count start step : nat) : list nat :=
  match count with
  | O => []
  | S count => start :: range_from count (start + step) step
  end.

Definition range (start stop step : nat) : list nat :=
  range_from ((stop - start + step - 1) / step) start step.

(** [enumerate(l)] *)
Definition enumerate {A} (l : list A) : list (nat * A) :=
  combine (seq 0 (length l)) l.

Section Methods.
(** The client state [self], and [_send_command] as a transformer of it:
    any behaviour of the correlation engine and of the device. *)
Context {Self : Type}.
Variable _send_command : Self -> ToDevice -> option Q -> Self * (exn + FromDevice).
(** What happens to the client while the caller sleeps (the reader thread
    keeps running). *)
Variable while_asleep : Self -> Q -> Self.

(** Methods run on the client state and the trace of what they did, and
    return a value or raise. *)
Definition M (A : Type) : Type := Self * list io -> (Self * list io) * (exn + A).

Definition ret {A} (a : A) : M A := fun w => (w, inr a).
Definition raise {A} (e : exn) : M A := fun w => (w, inl e).
Definition bind {A B} (m : M A) (k : A -> M B) : M B :=
  fun w => match m w with
           | (w, inr a) => k a w
           | (w, inl e) => (w, inl e)
           end.

Definition send_command (to_device : ToDevice) (timeout : option Q)
  : M FromDevice :=
  fun '(self, trace) =>
    let '(self, r) := _send_command self to_device timeout in
    ((self, trace ++ [SendCommand to_device timeout]), r).

Definition time_sleep (secs : Q) : M unit :=
  fun '(self, trace) => ((while_asleep self secs, trace ++ [Sleep secs]), inr tt).

Notation "x <- m ;; k" := (bind m (fun x => k))
  (at level 100, m at next level, right associativity).

(** The [for i, chunk in enumerate(chunks)] loop of
    [_send_split_message]. *)
Fixpoint send_parts (parts : list (nat * string)) (total : nat)
    (timeout : option Q) : M unit :=
  match parts with
  | [] => ret tt
  | (i, chunk) :: parts =>
    let part_text := ("[" ++ str (i + 1) ++ "/" ++ str total ++ "] " ++ chunk)%string in
    let cmd := send_message_request "" part_text in
    _ <- send_command cmd timeout ;;
    _ <- (if i <? total - 1 then time_sleep 0.3 else ret tt) ;;
    send_parts parts total timeout
  end.

(** [_send_split_message] *)
Definition _send_split_message (text : string) (priority : option Q)
    (timeout : option Q) : M string :=
  let CHUNK_SIZE := 160 in
  let chunks :=
    map (fun i => slice text i (i + CHUNK_SIZE))
        (range 0 (String.length text) CHUNK_SIZE) in
  let total := length chunks in
  _ <- send_parts (enumerate chunks) total timeout ;;
  ret ""%string.

(** [send_message].  [priority] is declared as an optional number and
    never inspected. *)
Definition send_message (text : string) (priority : option Q)
    (timeout : option Q) (auto_split : bool) : M string :=
  let MAX_LENGTH := 180 in
  if String.length text <=? MAX_LENGTH then
    let cmd := send_message_request "" text in
    _ <- send_command cmd timeout ;;
    ret ""%string
  else if negb auto_split then
    raise (ValueError
             ("Message too long (" ++ str (String.length text)
              ++ " chars). Max: " ++ str MAX_LENGTH
              ++ String "010"
                   "Use auto_split=True to automatically split into multiple messages, or split manually.")%string)
  else _send_split_message text priority timeout.

(** [broadcast]: [return self.send_message(text, timeout)], the second
    positional parameter of [send_message] being [priority]. *)
Definition broadcast (text : string) (timeout : option Q) : M string :=
  send_message text timeout None false.

End Methods.

End Messaging.


(** ** What the specification says of the codec, in its own words *)

Module FramingSpec.
Import Slip.

(** An escape byte that is the last byte, or that is followed by a byte
    other than the two escaped-literal codes. *)
Definition malformed (data : bytes) : Prop :=
  exists i : nat,
    data !! i = Some SLIP_ESC /\
    (data !! S i = None \/
     exists next_byte,
       data !! S i = Some next_byte /\
       next_byte <> SLIP_ESC_END /\ next_byte <> SLIP_ESC_ESC).

(** Stripping the delimiters and resolving the escape sequences of
    [framed] leaves [raw]. *)
Inductive resolves : bytes -> bytes -> Prop :=
| resolves_nil : resolves [] []
| resolves_delimiter framed raw :
    resolves framed raw -> resolves (SLIP_END :: framed) raw
| resolves_esc_end framed raw :
    resolves framed raw ->
    resolves (SLIP_ESC :: SLIP_ESC_END :: framed) (SLIP_END :: raw)
| resolves_esc_esc framed raw :
    resolves framed raw ->
    resolves (SLIP_ESC :: SLIP_ESC_ESC :: framed) (SLIP_ESC :: raw)
| resolves_literal b framed raw :
    b <> SLIP_END -> b <> SLIP_ESC ->
    resolves framed raw -> resolves (b :: framed) (b :: raw).

End FramingSpec.

(** ** What the specification says of the chunker, in its own words *)

Module ChunkingSpec.
Import Client Messaging.
Local Open Scope nat_scope.

(** The number of chunks, [ceil(len / 160)]. *)
Definition chunk_count (text : string) : nat := (String.length text + 159) / 160.

(** The [k]-th (0-based) of the consecutive 160-character chunks. *)
Definition chunk (text : string) (k : nat) : string := substring (160 * k) 160 text.

(** The command for chunk [i = k + 1] of [N]: the text is
    ["[i/N] " + chunk]. *)
Definition part_request (text : string) (k : nat) : ToDevice :=
  send_message_request ""
    ("[" ++ str (k + 1) ++ "/" ++ str (chunk_count text) ++ "] " ++ chunk text k)%string.

(** Sending chunk [k]: the command, then 300 ms of waiting unless the
    chunk is the last. *)
Definition part_trace (text : string) (timeout : option Q) (k : nat) : list io :=
  SendCommand (part_request text k) timeout
  :: (if k <? chunk_count text - 1 then [Sleep 0.3%Q] else []).

(** The parts in one string again. *)
Definition join (parts : list string) : string :=
  fold_right String.append ""%string parts.

(** A text of 400 characters, and one of 181. *)
Definition text400 : string := join (repeat "0123456789"%string 40).
Definition text181 : string := substring 0 181 text400.

End ChunkingSpec.

(** ** What the reader keeps true *)

Module ReaderSpec.
Import Slip.

(** The frame in progress holds no delimiter, there is none in progress
    before the first delimiter, and no queued frame is empty. *)
Definition reader_ok (self : SlipReader) : Prop :=
  (SLIP_END ∉ _buffer self) /\
  (_in_packet self = false -> _buffer self = []) /\
  Forall (fun packet => packet <> []) (_packets self).

(** The payloads that make a frame worth queueing. *)
Definition nonempty (xs : list bytes) : list bytes :=
  filter (fun x => x <> []) xs.

End ReaderSpec.

(** ** The event callbacks of the client, and what the reader thread hands
       to a waiting caller *)

Module Dispatcher.
Import Client.

(** [on_message], [on_gps], [on_neighbor], [on_emergency], [on_log]: each
    stores its argument in its slot. *)
Definition on_message (cb : option callback) (self : LoRaMeshClient) :=
  {| _timeout := _timeout self; _serial := _serial self;
     _packet_id := _packet_id self;
     _on_message := cb; _on_gps := _on_gps self;
     _on_neighbor := _on_neighbor self; _on_emergency := _on_emergency self;
     _on_log := _on_log self;
     _pending_responses := _pending_responses self;
     _response_events := _response_events self;
     events := events self; invoked := invoked self |}.

Definition on_gps (cb : option callback) (self : LoRaMeshClient) :=
  {| _timeout := _timeout self; _serial := _serial self;
     _packet_id := _packet_id self;
     _on_message := _on_message self; _on_gps := cb;
     _on_neighbor := _on_neighbor self; _on_emergency := _on_emergency self;
     _on_log := _on_log self;
     _pending_responses := _pending_responses self;
     _response_events := _response_events self;
     events := events self; invoked := invoked self |}.

Definition on_neighbor (cb : option callback) (self : LoRaMeshClient) :=
  {| _timeout := _timeout self; _serial := _serial self;
     _packet_id := _packet_id self;
     _on_message := _on_message self; _on_gps := _on_gps self;
     _on_neighbor := cb; _on_emergency := _on_emergency self;
     _on_log := _on_log self;
     _pending_responses := _pending_responses self;
     _response_events := _response_events self;
     events := events self; invoked := invoked self |}.

Definition on_emergency (cb : option callback) (self : LoRaMeshClient) :=
  {| _timeout := _timeout self; _serial := _serial self;
     _packet_id := _packet_id self;
     _on_message := _on_message self; _on_gps := _on_gps self;
     _on_neighbor := _on_neighbor self; _on_emergency := cb;
     _on_log := _on_log self;
     _pending_responses := _pending_responses self;
     _response_events := _response_events self;
     events := events self; invoked := invoked self |}.

Definition on_log (cb : option callback) (self : LoRaMeshClient) :=
  {| _timeout := _timeout self; _serial := _serial self;
     _packet_id := _packet_id self;
     _on_message := _on_message self; _on_gps := _on_gps self;
     _on_neighbor := _on_neighbor self; _on_emergency := _on_emergency self;
     _on_log := cb;
     _pending_responses := _pending_responses self;
     _response_events := _response_events self;
     events := events self; invoked := invoked self |}.

(** The registration method for the events of one kind (none for the
    payloads that are answers). *)
Definition register (kind : payload_kind) (cb : option callback)
    (self : LoRaMeshClient) : LoRaMeshClient :=
  match kind with
  | message_received => on_message cb self
  | gps_received => on_gps cb self
  | neighbor_changed => on_neighbor cb self
  | emergency_received => on_emergency cb self
  | log => on_log cb self
  | _ => self
  end.

(** The slot that holds the callback for the events of one kind. *)
Definition slot (kind : payload_kind) (self : LoRaMeshClient) : option callback :=
  match kind with
  | message_received => _on_message self
  | gps_received => _on_gps self
  | neighbor_changed => _on_neighbor self
  | emergency_received => _on_emergency self
  | log => _on_log self
  | _ => None
  end.

(** The answer to request [id] that an inbound packet carries, if it does. *)
Definition reply_of (id : Z) (parsed : option SerialPacket) : option FromDevice :=
  match parsed with
  | Some packet =>
    match from_device packet with
    | Some response =>
      if bool_decide (request_id response = id) then Some response else None
    | None => None
    end
  | None => None
  end.

(** The last answer to request [id] among the inbound packets. *)
Definition last_reply (id : Z) (inbound : list (option SerialPacket))
  : option FromDevice :=
  fold_left
    (fun found parsed =>
       match reply_of id parsed with Some response => Some response | None => found end)
    inbound None.

End Dispatcher.

(** ** The connection and the reader thread: [connect], [disconnect],
       [_read_loop] *)

Module Transport.
Import Slip Client.

(** The client together with the attributes that concern the connection:
    its stream reader, the [_running] flag, and whether a reader thread
    object is held. *)
Record Connection : Type := mkConnection {
  client : LoRaMeshClient;
  _slip_reader : SlipReader;
  _running : bool;
  _reader_thread : bool;
}.

(** [__init__] *)
Definition new_connection (timeout : Q) : Connection :=
  {| client := new_client timeout; _slip_reader := new_reader;
     _running := false; _reader_thread := false |}.

(** [connect].  [opened] is what [serial.Serial(...)] gives: the port, or
    [None] when it raises [SerialException]. *)
Definition connect (opened : option Serial) (self : Connection)
  : exn + Connection :=
  if is_connected (client self) then inr self
  else
    match opened with
    | None => inl SerialException
    | Some port =>
      inr {| client := set_serial (Some port) (client self);
             _slip_reader := clear (_slip_reader self);
             _running := true;
             _reader_thread := true |}
    end.

(** [disconnect] *)
Definition disconnect (self : Connection) : Connection :=
  {| client := set_serial None (client self);
     _slip_reader := clear (_slip_reader self);
     _running := false;
     _reader_thread := false |}.

Section ReadLoop.
(** [packet.ParseFromString(data)]: the packet, or [None] when it raises. *)
Variable parse : bytes -> option SerialPacket.

(** The [while self._slip_reader.has_packet()] loop of [_read_loop]; [n]
    bounds its turns. *)
Fixpoint dispatch_ready (n : nat) (self : Connection) : Connection :=
  match n with
  | O => self
  | S n =>
    if has_packet (_slip_reader self) then
      let '(packet_data, reader) := get_packet (_slip_reader self) in
      let client :=
        match packet_data with
        | Some data =>
          if bool_decide (data = []) then client self
          else _handle_packet (client self) (parse data)
        | None => client self
        end in
      dispatch_ready n
        {| client := client; _slip_reader := reader;
           _running := _running self; _reader_thread := _reader_thread self |}
    else self
  end.

(** One turn of the [while self._running and self._serial] loop of
    [_read_loop].  [data] is what [self._serial.read(256)] returned, [None]
    when it raised (the loop then sleeps and goes on). *)
Definition read_once (self : Connection) (data : option bytes) : Connection :=
  if _running self && bool_decide (is_Some (_serial (client self))) then
    match data with
    | None => self
    | Some data =>
      if bool_decide (data = []) then self
      else
        let reader := feed (_slip_reader self) data in
        dispatch_ready (length (_packets reader))
          {| client := client self; _slip_reader := reader;
             _running := _running self; _reader_thread := _reader_thread self |}
    end
  else self.

(** The frames handed to [_handle_packet], in order. *)
Definition deliver (self : LoRaMeshClient) (frames : list bytes) : LoRaMeshClient :=
  fold_left
    (fun self data =>
       if bool_decide (data = []) then self else _handle_packet self (parse data))
    frames self.

End ReadLoop.

(** The bytes that the reads returned, in order. *)
Definition bytes_read (reads : list (option bytes)) : bytes :=
  concat (omap id reads).

(** For the examples: a stand-in for the protobuf parser, which takes the
    first byte of the payload for the request id of an answer, and a
    connection as [connect] leaves it. *)
Definition parse_answer (data : bytes) : option SerialPacket :=
  match data with
  | [] => None
  | b :: rest =>
    Some {| packet_id := 0; to_device := None;
            from_device :=
              Some {| request_id := Z.of_N (Byte.to_N b);
                      payload := Some result; body := rest |} |}
  end.

Definition connected : Connection :=
  {| client := Client.connect (new_client DEFAULT_TIMEOUT);
     _slip_reader := new_reader; _running := true; _reader_thread := true |}.

End Transport.

(** ** What the firmware can take *)

Module FirmwareLimit.
Import Client Messaging.

(** A command is within [limit] when it carries no message text longer than
    [limit] characters. *)
Definition fits (limit : nat) (a : io) : Prop :=
  forall destination part timeout,
    a = SendCommand (send_message_request destination part) timeout ->
    (String.length part <= limit)%nat.

End FirmwareLimit.

(** ** What the reader thread leaves alone *)

Module ReaderThread.
Import Client.

(** [after] differs from [before] only by what handling inbound packets
    may do: store responses, set events, invoke callbacks. *)
Definition only_handled (before after : LoRaMeshClient) : Prop :=
  _response_events after = _response_events before /\
  _packet_id after = _packet_id before /\
  _serial after = _serial before /\
  _timeout after = _timeout before /\
  _on_message after = _on_message before /\
  _on_gps after = _on_gps before /\
  _on_neighbor after = _on_neighbor before /\
  _on_emergency after = _on_emergency before /\
  _on_log after = _on_log before /\
  length (events after) = length (events before) /\
  exists calls, invoked after = invoked before ++ calls.

End ReaderThread.

(** ** The event log of the debug interface: [debug_interface.py] *)

Module DebugInterface.

(** [self.max_log_lines] as [__init__] sets it. *)
Definition max_log_lines : nat := 100.

(** The entry that [log_event] builds; [timestamp] is the formatted
    [datetime.now()]. *)
Definition entry (timestamp message level : string) : string :=
  ("[" ++ timestamp ++ "] [" ++ level ++ "] " ++ message)%string.

(** [log_event], as to [self.events]: append, then [pop(0)] when the list
    has outgrown [max_log_lines]. *)
Definition log_event (timestamp message level : string) (events : list string)
  : list string :=
  let events := events ++ [entry timestamp message level] in
  if (max_log_lines <? length events)%nat then List.tl events else events.

(** [self.events[-30:]], what [show_events] prints. *)
Definition shown (events : list string) : list string :=
  drop (length events - 30) events.

(** A series of calls of [log_event], each with its timestamp, message and
    level. *)
Definition log_events (calls : list (string * string * string))
    (events : list string) : list string :=
  fold_left
    (fun events '(timestamp, message, level) =>
       log_event timestamp message level events)
    calls events.

Definition entries (calls : list (string * string * string)) : list string :=
  map (fun '(timestamp, message, level) => entry timestamp message level) calls.

End DebugInterface.

(** ** The client from one chunk of a split message to the next *)

Module SplitRun.
Import Client Messaging ChunkingSpec.
Local Open Scope nat_scope.

Section Run.
Context {Self : Type}.
Variable _send_command : Self -> ToDevice -> option Q -> Self * (exn + FromDevice).
Variable while_asleep : Self -> Q -> Self.
Variables (text : string) (timeout : option Q) (self : Self).

(** The client as the command of chunk [k] finds it, when [send_message]
    started on [self] and the commands of the chunks before [k] returned:
    each of them has run, and the sleep that follows it when it is not the
    last. *)
Fixpoint before_part (k : nat) : Self :=
  match k with
  | O => self
  | S k =>
    let self' := fst (_send_command (before_part k) (part_request text k) timeout) in
    if k <? chunk_count text - 1 then while_asleep self' 0.3%Q else self'
  end.

End Run.

(** The port is lost while the caller sleeps. *)
Definition unplugged (self : LoRaMeshClient) (secs : Q) : LoRaMeshClient :=
  set_serial None self.

End SplitRun.

(** * Properties *)

(** ** The frame codec *)

Module SlipProofs.
Import Slip FramingSpec.

Lemma eqb_eq (a b : byte) : Byte.eqb a b = true <-> a = b.
Proof. split; [apply Byte.byte_dec_bl | apply Byte.byte_dec_lb]. Qed.

Lemma eqb_neq (a b : byte) : Byte.eqb a b = false <-> a <> b.
Proof.
  split; [apply Byte.eqb_false |].
  intros Hne. destruct (Byte.eqb a b) eqn:E; [|done].
  by apply eqb_eq in E.
Qed.

(** Case analysis on a byte test, leaving the (in)equality as a
    hypothesis. *)
Ltac byte_case a b :=
  let E := fresh "E" in
  destruct (Byte.eqb a b) eqn:E;
  [apply eqb_eq in E | apply eqb_neq in E].

Lemma append_to_cons result b r :
  append_to (result ++ [b]) r
  = append_to result (match r with inr out => inr (b :: out) | inl e => inl e end).
Proof. destruct r; simpl; [done|]. by rewrite <- app_assoc. Qed.

(** The loop from index [i] with accumulator [result] appends to [result]
    what the walk over [drop i data] yields, and it never runs out of
    fuel when given at least the number of bytes left. *)
Lemma slip_decode_loop_rest fuel : forall data i result,
  (length data - i <= fuel)%nat ->
  slip_decode_loop fuel data i result
  = Some (append_to result (decode_rest (drop i data))).
Proof.
  induction fuel as [|fuel IH]; intros data i result Hfuel.
  - assert (data !! i = None) as Hi by (apply lookup_ge_None; lia).
    simpl. rewrite Hi, drop_ge by lia. simpl. by rewrite app_nil_r.
  - simpl. destruct (data !! i) as [b|] eqn:Hi.
    + pose proof (lookup_lt_Some _ _ _ Hi) as Hlt.
      rewrite (drop_S _ _ _ Hi). simpl.
      byte_case b SLIP_ESC.
      * destruct (data !! S i) as [n|] eqn:Hn.
        -- rewrite (drop_S _ _ _ Hn).
           pose proof (lookup_lt_Some _ _ _ Hn).
           byte_case n SLIP_ESC_END.
           { rewrite IH by lia. by rewrite append_to_cons. }
           byte_case n SLIP_ESC_ESC.
           { rewrite IH by lia. by rewrite append_to_cons. }
           done.
        -- apply lookup_ge_None in Hn. by rewrite drop_ge by lia.
      * byte_case b SLIP_END; simpl.
        -- by rewrite IH by lia.
        -- rewrite IH by lia. by rewrite append_to_cons.
    + apply lookup_ge_None in Hi. rewrite drop_ge by lia. simpl.
      by rewrite app_nil_r.
Qed.

Lemma slip_decode_rest data : slip_decode data = Some (decode_rest data).
Proof.
  unfold slip_decode. rewrite slip_decode_loop_rest by lia.
  rewrite drop_0. by destruct (decode_rest data).
Qed.

Lemma fold_encode data : forall result,
  fold_left (fun result b => result ++ encode_byte b) data result
  = result ++ flat_map encode_byte data.
Proof.
  induction data as [|b data IH]; intros result; simpl.
  - by rewrite app_nil_r.
  - by rewrite IH, <- app_assoc.
Qed.

Lemma slip_encode_frame data :
  slip_encode data = SLIP_END :: flat_map encode_byte data ++ [SLIP_END].
Proof. unfold slip_encode. by rewrite fold_encode. Qed.

Lemma decode_rest_encode_byte b rest :
  decode_rest (encode_byte b ++ rest)
  = match decode_rest rest with inr out => inr (b :: out) | inl e => inl e end.
Proof.
  unfold encode_byte.
  byte_case b SLIP_END; [by subst|].
  byte_case b SLIP_ESC; [by subst|].
  simpl. apply eqb_neq in E, E0. by rewrite E, E0.
Qed.

Lemma decode_rest_encoded data rest :
  decode_rest (flat_map encode_byte data ++ rest)
  = match decode_rest rest with inr out => inr (data ++ out) | inl e => inl e end.
Proof.
  induction data as [|b data IH]; simpl.
  - by destruct (decode_rest rest).
  - rewrite <- app_assoc, decode_rest_encode_byte, IH.
    by destruct (decode_rest rest).
Qed.

(** C3: for every byte sequence [x], decoding the encoding of [x] returns
    [x], without a [ValueError]. *)
Theorem slip_roundtrip (x : bytes) :
  slip_decode (slip_encode x) = Some (inr x).
Proof.
  rewrite slip_decode_rest, slip_encode_frame.
  change (decode_rest (SLIP_END :: ?l)) with (decode_rest l).
  rewrite decode_rest_encoded. simpl. by rewrite app_nil_r.
Qed.

(** Induction on byte sequences two bytes at a time, as the decoder
    consumes them. *)
Lemma bytes_ind2 (P : bytes -> Prop) :
  P [] -> (forall a, P [a]) ->
  (forall a b l, P l -> P (b :: l) -> P (a :: b :: l)) ->
  forall l, P l.
Proof.
  intros Hnil Hone Hstep l.
  cut (P l /\ forall a, P (a :: l)); [tauto|].
  induction l as [|b l [IH1 IH2]]; split; auto.
Qed.

Lemma malformed_nil : ~ malformed [].
Proof. intros (i & Hi & _). by rewrite lookup_nil in Hi. Qed.

Lemma malformed_tail b data : malformed data -> malformed (b :: data).
Proof. intros (i & Hi & Hnext). by exists (S i). Qed.

Lemma malformed_head data :
  data = [] \/
  (exists n rest, data = n :: rest /\ n <> SLIP_ESC_END /\ n <> SLIP_ESC_ESC) ->
  malformed (SLIP_ESC :: data).
Proof.
  intros H. exists 0%nat. split; [done|].
  destruct H as [->|(n & rest & -> & ? & ?)]; [by left|].
  right. by exists n.
Qed.

Lemma malformed_inv b data :
  malformed (b :: data) ->
  (b = SLIP_ESC /\
   (data = [] \/
    exists n rest, data = n :: rest /\ n <> SLIP_ESC_END /\ n <> SLIP_ESC_ESC))
  \/ malformed data.
Proof.
  intros ([|i] & Hi & Hnext).
  - left. simpl in Hi. split; [congruence|].
    destruct data as [|n rest]; [by left|right].
    exists n, rest. split; [done|].
    destruct Hnext as [Hnone|(n' & Hn' & ? & ?)]; [done|].
    simpl in Hn'. by simplify_eq.
  - right. by exists i.
Qed.

(** [decode_rest] raises exactly on malformed input. *)
Lemma decode_rest_fails data :
  (exists e, decode_rest data = inl e) <-> malformed data.
Proof.
  induction data as [|a|a b l IHl IHbl] using bytes_ind2.
  - split; [by intros [e He]|]. intros H. by destruct (malformed_nil H).
  - simpl. byte_case a SLIP_ESC.
    + subst. split; [|by eexists]. intros _. apply malformed_head. by left.
    + split.
      * intros [e He]. by destruct (negb (Byte.eqb a SLIP_END)).
      * intros [[? _]|H]%malformed_inv; [done|]. by destruct (malformed_nil H).
  - change (decode_rest (a :: b :: l)) with
      (if Byte.eqb a SLIP_ESC then
         if Byte.eqb b SLIP_ESC_END then
           match decode_rest l with
           | inr out => inr (SLIP_END :: out) | inl e => inl e end
         else if Byte.eqb b SLIP_ESC_ESC then
           match decode_rest l with
           | inr out => inr (SLIP_ESC :: out) | inl e => inl e end
         else inl (InvalidEscape b)
       else if negb (Byte.eqb a SLIP_END) then
         match decode_rest (b :: l) with
         | inr out => inr (a :: out) | inl e => inl e end
       else decode_rest (b :: l)).
    byte_case a SLIP_ESC.
    + subst a. byte_case b SLIP_ESC_END; [|byte_case b SLIP_ESC_ESC].
      * subst b. split.
        -- intros [e He]. do 2 apply malformed_tail. apply IHl.
           destruct (decode_rest l); [by eexists|done].
        -- intros [[_ [?|(n & rest & ? & ? & ?)]]|H]%malformed_inv;
             [done|by simplify_eq|].
           apply malformed_inv in H as [[? _]|H]; [done|].
           apply IHl in H as [e ->]. by eexists.
      * subst b. split.
        -- intros [e He]. do 2 apply malformed_tail. apply IHl.
           destruct (decode_rest l); [by eexists|done].
        -- intros [[_ [?|(n & rest & ? & ? & ?)]]|H]%malformed_inv;
             [done|by simplify_eq|].
           apply malformed_inv in H as [[? _]|H]; [done|].
           apply IHl in H as [e ->]. by eexists.
      * split; [|by eexists]. intros _. apply malformed_head. right.
        by exists b, l.
    + assert ((exists e,
                 match decode_rest (b :: l) with
                 | inr out => inr (a :: out) | inl e => inl e end
                 = inl e :> ValueError + bytes)
              <-> exists e, decode_rest (b :: l) = inl e) as Hlit.
      { destruct (decode_rest (b :: l)); split; intros [e' He']; by eauto. }
      destruct (negb (Byte.eqb a SLIP_END)); rewrite ?Hlit, IHbl.
      all: split; [apply malformed_tail|].
      all: by intros [[? _]|H]%malformed_inv.
Qed.

(** On success [decode_rest] returns the resolved bytes, and nothing else
    resolves the input. *)
Lemma decode_rest_resolves data raw :
  decode_rest data = inr raw <-> resolves data raw.
Proof.
  split.
  - revert raw.
    induction data as [|a|a b l IHl IHbl] using bytes_ind2; intros raw.
    + simpl. intros [= <-]. constructor.
    + simpl. byte_case a SLIP_ESC; [done|].
      byte_case a SLIP_END; simpl; intros [= <-].
      * subst. do 2 constructor.
      * constructor; [done..|constructor].
    + change (decode_rest (a :: b :: l)) with
        (if Byte.eqb a SLIP_ESC then
           if Byte.eqb b SLIP_ESC_END then
             match decode_rest l with
             | inr out => inr (SLIP_END :: out) | inl e => inl e end
           else if Byte.eqb b SLIP_ESC_ESC then
             match decode_rest l with
             | inr out => inr (SLIP_ESC :: out) | inl e => inl e end
           else inl (InvalidEscape b)
         else if negb (Byte.eqb a SLIP_END) then
           match decode_rest (b :: l) with
           | inr out => inr (a :: out) | inl e => inl e end
         else decode_rest (b :: l)).
      byte_case a SLIP_ESC.
      * subst a. byte_case b SLIP_ESC_END; [|byte_case b SLIP_ESC_ESC]; [..|done].
        -- subst b. destruct (decode_rest l) eqn:Hl; [done|].
           intros [= <-]. constructor. by apply IHl.
        -- subst b. destruct (decode_rest l) eqn:Hl; [done|].
           intros [= <-]. constructor. by apply IHl.
      * byte_case a SLIP_END; cbn [negb].
        -- subst a. intros H. constructor. by apply IHbl.
        -- destruct (decode_rest (b :: l)) eqn:Hl; [done|].
           intros [= <-]. constructor; [done..|]. by apply IHbl.
  - induction 1 as [|framed raw _ IH|framed raw _ IH|framed raw _ IH
                    |b framed raw Hend Hesc _ IH].
    + done.
    + done.
    + change (decode_rest (SLIP_ESC :: SLIP_ESC_END :: framed)) with
        (match decode_rest framed with
         | inr out => inr (SLIP_END :: out) | inl e => inl e end).
      by rewrite IH.
    + change (decode_rest (SLIP_ESC :: SLIP_ESC_ESC :: framed)) with
        (match decode_rest framed with
         | inr out => inr (SLIP_ESC :: out) | inl e => inl e end).
      by rewrite IH.
    + simpl. apply eqb_neq in Hend, Hesc. by rewrite Hesc, Hend, IH.
Qed.

(** C5: [slip_decode] always returns; it raises [ValueError] exactly when
    an escape byte is the last byte of the input or is followed by a byte
    other than [0xDC] and [0xDD]; it succeeds exactly on the other
    inputs, and what it then returns is the input with its delimiters
    stripped and its escape sequences resolved. *)
Theorem slip_decode_fails_iff_malformed (data : bytes) :
  ((exists e, slip_decode data = Some (inl e)) <-> malformed data) /\
  ((exists raw, slip_decode data = Some (inr raw)) <-> ~ malformed data) /\
  (forall raw, slip_decode data = Some (inr raw) <-> resolves data raw).
Proof.
  rewrite slip_decode_rest. split; [|split].
  - rewrite <- decode_rest_fails. split; intros [e He]; exists e; congruence.
  - rewrite <- decode_rest_fails. split.
    + intros [raw Hraw] [e He]. congruence.
    + intros Hok. destruct (decode_rest data) as [e|raw]; [|by eexists].
      destruct Hok. by eexists.
  - intros raw. rewrite <- decode_rest_resolves.
    split; [by intros [= ->]|by intros ->].
Qed.

(** *** The stream reader *)

Lemma feed_app self a b : feed self (a ++ b) = feed (feed self a) b.
Proof. apply fold_left_app. Qed.

Lemma get_packets_all self :
  get_packets (length (_packets self)) self
  = (_packets self,
     {| _buffer := _buffer self; _in_packet := _in_packet self; _packets := [] |}).
Proof.
  destruct self as [buf inp pks]. cbn [_packets _buffer _in_packet].
  induction pks as [|p pks IH]; [done|].
  cbn [length get_packets]. unfold has_packet, get_packet. cbn [_packets length].
  rewrite bool_decide_eq_true_2 by lia. cbn [_buffer _in_packet].
  by rewrite IH.
Qed.

(** The queue only grows at its end: what [feed] extracts does not depend on
    what is already queued. *)
Lemma feed_byte_queue buf inp pks b :
  feed_byte {| _buffer := buf; _in_packet := inp; _packets := pks |} b
  = let fed := feed_byte {| _buffer := buf; _in_packet := inp; _packets := [] |} b in
    {| _buffer := _buffer fed; _in_packet := _in_packet fed;
       _packets := pks ++ _packets fed |}.
Proof.
  unfold feed_byte. cbn [_buffer _in_packet _packets].
  destruct (Byte.eqb b SLIP_END).
  - destruct (inp && negb (bool_decide (buf = []))); cbn;
      [destruct (slip_decode buf) as [[|]|]|]; cbn; by rewrite ?app_nil_r.
  - destruct inp; cbn; by rewrite app_nil_r.
Qed.

Lemma feed_queue data : forall buf inp pks,
  feed {| _buffer := buf; _in_packet := inp; _packets := pks |} data
  = let fed := feed {| _buffer := buf; _in_packet := inp; _packets := [] |} data in
    {| _buffer := _buffer fed; _in_packet := _in_packet fed;
       _packets := pks ++ _packets fed |}.
Proof.
  induction data as [|b data IH]; intros buf inp pks.
  - cbn. by rewrite app_nil_r.
  - cbn [feed fold_left]. fold (feed (feed_byte (mkReader buf inp pks) b) data).
    fold (feed (feed_byte (mkReader buf inp []) b) data).
    rewrite (feed_byte_queue buf inp pks).
    destruct (feed_byte (mkReader buf inp []) b) as [buf' inp' pks'].
    cbn [_buffer _in_packet _packets]. cbv zeta.
    rewrite (IH buf' inp' (pks ++ pks')), (IH buf' inp' pks').
    cbn [_buffer _in_packet _packets]. by rewrite app_assoc.
Qed.

Lemma read_chunk_eq self handled data :
  read_chunk (self, handled) data
  = ({| _buffer := _buffer (feed self data);
        _in_packet := _in_packet (feed self data); _packets := [] |},
     handled ++ _packets (feed self data)).
Proof. unfold read_chunk. by rewrite get_packets_all. Qed.

Lemma read_chunks_as_block chunks : forall self handled,
  _packets self = [] ->
  fold_left read_chunk chunks (self, handled)
  = ({| _buffer := _buffer (feed self (concat chunks));
        _in_packet := _in_packet (feed self (concat chunks)); _packets := [] |},
     handled ++ _packets (feed self (concat chunks))).
Proof.
  induction chunks as [|c chunks IH]; intros [buf inp pks] handled Hempty;
    cbn in Hempty; subst pks.
  - cbn. by rewrite app_nil_r.
  - cbn [fold_left concat]. rewrite read_chunk_eq, IH by done.
    rewrite feed_app.
    destruct (feed (mkReader buf inp []) c) as [buf' inp' pks'].
    cbn [_buffer _in_packet _packets].
    rewrite (feed_queue (concat chunks) buf' inp' pks').
    cbn [_buffer _in_packet _packets]. by rewrite app_assoc.
Qed.

(** C4: feeding a byte sequence chunk by chunk, for every way of cutting
    it into chunks and in particular one byte at a time, leaves the reader
    in the state that feeding it as one block does: the same queue of
    extracted frames (and the same frame in progress).  The same holds when
    the frames are popped after every chunk, as the client's read loop
    does: the frames popped, in order, are those of the one block. *)
Theorem feed_chunks_as_block (self : SlipReader) :
  (forall chunks : list bytes,
     fold_left feed chunks self = feed self (concat chunks)) /\
  (forall data : bytes,
     fold_left feed (map (fun b => [b]) data) self = feed self data) /\
  (forall chunks : list bytes,
     snd (fold_left read_chunk chunks (clear self, []))
     = _packets (feed (clear self) (concat chunks))).
Proof.
  assert (forall chunks self,
            fold_left feed chunks self = feed self (concat chunks)) as Hchunks.
  { clear self. induction chunks as [|c chunks IH]; intros self; simpl; [done|].
    by rewrite IH, feed_app. }
  split; [intros chunks; apply Hchunks|]. split.
  - intros data. rewrite Hchunks. f_equal.
    induction data as [|b data IH]; simpl; congruence.
  - intros chunks. by rewrite read_chunks_as_block.
Qed.

(** Bytes other than the delimiter pile up in the buffer of a reader that
    is inside a packet. *)
Lemma feed_body body : forall self,
  SLIP_END ∉ body -> _in_packet self = true ->
  feed self body
  = {| _buffer := _buffer self ++ body; _in_packet := true;
       _packets := _packets self |}.
Proof.
  induction body as [|b body IH]; intros [buf inp pks] Hno Hin;
    simpl in *; subst inp.
  - by rewrite app_nil_r.
  - apply not_elem_of_cons in Hno as [Hb Hno].
    apply not_eq_sym, eqb_neq in Hb.
    unfold feed_byte. rewrite Hb. cbn [_in_packet _buffer _packets].
    rewrite IH by done. simpl. by rewrite <- app_assoc.
Qed.

(** The delimiter closes the packet in progress and opens the next. *)
Lemma feed_end self :
  feed self [SLIP_END]
  = {| _buffer := []; _in_packet := true;
       _packets :=
         if _in_packet self && negb (bool_decide (_buffer self = [])) then
           match decode_rest (_buffer self) with
           | inr decoded => _packets self ++ [decoded]
           | inl _ => _packets self
           end
         else _packets self |}.
Proof.
  unfold feed, feed_byte. simpl. by rewrite slip_decode_rest.
Qed.

Lemma encode_byte_no_end b : SLIP_END ∉ encode_byte b.
Proof.
  unfold encode_byte.
  byte_case b SLIP_END; [|byte_case b SLIP_ESC].
  - by intros [|[|[]%elem_of_nil]%elem_of_cons]%elem_of_cons.
  - by intros [|[|[]%elem_of_nil]%elem_of_cons]%elem_of_cons.
  - intros [|[]%elem_of_nil]%elem_of_cons. congruence.
Qed.

Lemma encoded_no_end data : SLIP_END ∉ flat_map encode_byte data.
Proof.
  induction data as [|b data IH]; simpl.
  - apply not_elem_of_nil.
  - rewrite elem_of_app. intros [H|H]; [by apply encode_byte_no_end in H|done].
Qed.

Lemma encoded_nil data : flat_map encode_byte data = [] -> data = [].
Proof.
  destruct data as [|b data]; [done|]. simpl. unfold encode_byte.
  by destruct (Byte.eqb b SLIP_END), (Byte.eqb b SLIP_ESC).
Qed.

(** A whole frame fed to a reader: the leading delimiter closes whatever
    was in progress, the body fills the fresh buffer, the closing
    delimiter has it decoded. *)
Lemma feed_frame self body :
  SLIP_END ∉ body ->
  feed self (SLIP_END :: body ++ [SLIP_END])
  = {| _buffer := []; _in_packet := true;
       _packets :=
         _packets (feed self [SLIP_END])
         ++ match decode_rest body with
            | inr decoded => if bool_decide (body = []) then [] else [decoded]
            | inl _ => []
            end |}.
Proof.
  intros Hno.
  change (SLIP_END :: body ++ [SLIP_END]) with ([SLIP_END] ++ body ++ [SLIP_END]).
  rewrite !feed_app. rewrite (feed_end self).
  rewrite (feed_body body) by done. rewrite feed_end.
  cbn [_packets _in_packet _buffer app andb]. f_equal.
  destruct (decode_rest body), (bool_decide (body = []));
    cbn [negb]; by rewrite ?app_nil_r.
Qed.

(** C6: a frame whose body holds a corrupt escape is swallowed by [feed]
    (which returns normally, having enqueued nothing for it), and a frame
    encoding a payload [x] fed afterwards is decoded and enqueued; an empty
    payload, as always, enqueues nothing. *)
Theorem corrupt_frame_dropped (self : SlipReader) (body x : bytes)
    (Hbody : SLIP_END ∉ body) (Hcorrupt : malformed body) :
  let after := feed self (SLIP_END :: body ++ [SLIP_END]) in
  after = {| _buffer := []; _in_packet := true;
             _packets := _packets (feed self [SLIP_END]) |} /\
  _packets (feed after (slip_encode x))
  = _packets after ++ match x with [] => [] | _ => [x] end.
Proof.
  intros after.
  assert (after = {| _buffer := []; _in_packet := true;
                     _packets := _packets (feed self [SLIP_END]) |}) as ->.
  { subst after. rewrite feed_frame by done.
    apply decode_rest_fails in Hcorrupt as [e ->]. by rewrite app_nil_r. }
  split; [done|].
  rewrite slip_encode_frame. rewrite feed_frame by apply encoded_no_end.
  cbn [_packets]. rewrite feed_end. cbn [_packets _in_packet _buffer].
  rewrite bool_decide_eq_true_2 by done. cbn [negb andb]. f_equal.
  pose proof (decode_rest_encoded x []) as Hx. rewrite app_nil_r in Hx.
  simpl in Hx. rewrite app_nil_r in Hx. rewrite Hx.
  destruct x as [|b x]; [done|].
  rewrite bool_decide_eq_false_2; [done|].
  intros Henc. by apply encoded_nil in Henc.
Qed.

(** A frame with a bare escape before its closing delimiter, then the
    frame of the two bytes [0xC0 0xDB]. *)
Lemma corrupt_frame_dropped_witness :
  let after := feed new_reader (SLIP_END :: [x01; SLIP_ESC] ++ [SLIP_END]) in
  after = {| _buffer := []; _in_packet := true;
             _packets := _packets (feed new_reader [SLIP_END]) |} /\
  _packets (feed after (slip_encode [xc0; xdb]))
  = _packets after ++ [[xc0; xdb]].
Proof.
  apply (corrupt_frame_dropped new_reader [x01; SLIP_ESC] [xc0; xdb]).
  - intros [|[|[]%elem_of_nil]%elem_of_cons]%elem_of_cons; discriminate.
  - exists 1%nat. split; [reflexivity|]. left. reflexivity.
Defined.

End SlipProofs.

(** ** The correlation engine *)

Module ClientProofs.
Import Client.

(** *** Packet ids *)

Lemma next_packet_id_eq self :
  _next_packet_id self
  = ((_packet_id self + 1) mod 0xFFFFFFFF,
     set_packet_id ((_packet_id self + 1) mod 0xFFFFFFFF) self).
Proof. reflexivity. Qed.

Lemma after_allocations_succ n self :
  after_allocations (N.succ n) self
  = snd (_next_packet_id (after_allocations n self)).
Proof. unfold after_allocations. by rewrite N.iter_succ. Qed.

Lemma after_allocations_packet_id n : forall self,
  0 <= _packet_id self < 0xFFFFFFFF ->
  _packet_id (after_allocations n self)
  = (_packet_id self + Z.of_N n) mod 0xFFFFFFFF.
Proof.
  intros self Hrange. induction n as [|n IH] using N.peano_ind.
  - simpl. rewrite Z.add_0_r. by rewrite Z.mod_small.
  - rewrite after_allocations_succ, next_packet_id_eq. simpl. rewrite IH.
    rewrite Zplus_mod_idemp_l. f_equal. lia.
Qed.

(** C10: the counter advances by [(id + 1) mod 0xFFFFFFFF], that is modulo
    [2^32 - 1]; the first id after construction is 1; the [n]-th id is
    [n mod (2^32 - 1)], so the ids allocated are exactly the values
    [0 .. 0xFFFFFFFE], and [0xFFFFFFFF] is never one of them. *)
Theorem packet_id_mod_2_32_minus_1 :
  (forall self,
     fst (_next_packet_id self) = (_packet_id self + 1) mod (2 ^ 32 - 1) /\
     _packet_id (snd (_next_packet_id self)) = fst (_next_packet_id self) /\
     0 <= fst (_next_packet_id self) <= 0xFFFFFFFE /\
     fst (_next_packet_id self) <> 0xFFFFFFFF) /\
  (forall timeout, fst (_next_packet_id (new_client timeout)) = 1) /\
  (forall timeout n,
     fst (_next_packet_id (after_allocations n (new_client timeout)))
     = (Z.of_N n + 1) mod (2 ^ 32 - 1)) /\
  (forall timeout v, 0 <= v <= 0xFFFFFFFE ->
     exists n,
       fst (_next_packet_id (after_allocations n (new_client timeout))) = v).
Proof.
  assert (forall timeout n,
     fst (_next_packet_id (after_allocations n (new_client timeout)))
     = (Z.of_N n + 1) mod (2 ^ 32 - 1)) as Hnth.
  { intros timeout n. rewrite next_packet_id_eq. cbn [fst].
    rewrite after_allocations_packet_id by (simpl; lia).
    change (0xFFFFFFFF) with (2 ^ 32 - 1).
    rewrite Zplus_mod_idemp_l. by simpl. }
  split; [|split; [|split]].
  - intros self. rewrite next_packet_id_eq. cbn [fst snd].
    change (0xFFFFFFFF) with (2 ^ 32 - 1).
    pose proof (Z.mod_pos_bound (_packet_id self + 1) (2 ^ 32 - 1)).
    split; [done|]. split; [by destruct self|]. lia.
  - done.
  - done.
  - intros timeout v Hv.
    destruct (decide (v = 0)) as [->|Hnz].
    + exists 0xFFFFFFFE%N. rewrite Hnth. reflexivity.
    + exists (Z.to_N (v - 1)). rewrite Hnth.
      rewrite Z2N.id by lia. rewrite Z.mod_small by lia. lia.
Qed.

(** *** Sending a command and waiting for its answer *)

(** What [_send_command_begin] does on a port that takes the write. *)
Lemma send_command_begin_ok self to_device timeout :
  can_write self ->
  exists self1,
    _send_command_begin self to_device timeout
    = (self1,
       inr ((_packet_id self + 1) mod 0xFFFFFFFF, length (events self),
            match timeout with Some t => t | None => _timeout self end)) /\
    _packet_id self1 = (_packet_id self + 1) mod 0xFFFFFFFF /\
    _response_events self1
    = <[(_packet_id self + 1) mod 0xFFFFFFFF := length (events self)]>
        (_response_events self) /\
    events self1 = events self ++ [false] /\
    _pending_responses self1 = _pending_responses self /\
    invoked self1 = invoked self /\
    _timeout self1 = _timeout self /\
    can_write self1.
Proof.
  intros (s & Hs & Hopen & Hwrite). destruct self; simpl in *. subst.
  unfold _send_command_begin, _next_packet_id, _send_packet. simpl.
  rewrite Hopen, Hwrite. eexists. split; [reflexivity|]. simpl.
  repeat split. eexists. by repeat split.
Qed.

Lemma handle_event_tables self response :
  _response_events (_handle_event self response) = _response_events self /\
  _pending_responses (_handle_event self response) = _pending_responses self /\
  events (_handle_event self response) = events self /\
  _packet_id (_handle_event self response) = _packet_id self /\
  _serial (_handle_event self response) = _serial self /\
  _timeout (_handle_event self response) = _timeout self.
Proof.
  unfold _handle_event.
  destruct (payload response) as [[]|]; try done.
  all: match goal with |- context [match ?cb with _ => _ end] => by destruct cb end.
Qed.

Lemma handle_event_not_event self response :
  is_event (payload response) = false -> _handle_event self response = self.
Proof.
  unfold _handle_event. by destruct (payload response) as [[]|].
Qed.

(** The reader thread never touches the registrations, the counter or the
    port. *)
Lemma handle_packet_frame self parsed :
  _response_events (_handle_packet self parsed) = _response_events self /\
  _packet_id (_handle_packet self parsed) = _packet_id self /\
  _serial (_handle_packet self parsed) = _serial self /\
  _timeout (_handle_packet self parsed) = _timeout self.
Proof.
  unfold _handle_packet.
  destruct parsed as [packet|]; [|done].
  destruct (from_device packet) as [response|]; [|done].
  destruct (_response_events self !! request_id response); [done|].
  pose proof (handle_event_tables self response). tauto.
Qed.

Lemma handle_packet_still_waiting id ev self parsed :
  ~ replies_to id parsed ->
  still_waiting id ev self -> still_waiting id ev (_handle_packet self parsed).
Proof.
  intros Hno (Hreg & Hflag & Halias).
  pose proof (handle_packet_frame self parsed) as (Hev & _).
  split; [by rewrite Hev|]. split; [|by rewrite Hev].
  unfold _handle_packet.
  destruct parsed as [packet|]; [|done].
  destruct (from_device packet) as [response|] eqn:Hfrom; [|done].
  destruct (_response_events self !! request_id response) as [ev'|] eqn:Hev'.
  - simpl. rewrite list_lookup_insert_ne; [done|].
    apply (Halias _ _ Hev'). intros Heq. apply Hno. by exists packet, response.
  - by destruct (handle_event_tables self response) as (_ & _ & -> & _).
Qed.

Lemma handle_packets_still_waiting id ev inbound : forall self,
  Forall (fun parsed => ~ replies_to id parsed) inbound ->
  still_waiting id ev self ->
  still_waiting id ev (fold_left _handle_packet inbound self).
Proof.
  induction inbound as [|parsed inbound IH]; intros self Hno Hwait; [done|].
  apply Forall_cons in Hno as [Hp Hno]. simpl.
  apply IH; [done|]. by apply handle_packet_still_waiting.
Qed.

Lemma handle_packets_frame inbound : forall self,
  _response_events (fold_left _handle_packet inbound self) = _response_events self /\
  _packet_id (fold_left _handle_packet inbound self) = _packet_id self /\
  _serial (fold_left _handle_packet inbound self) = _serial self /\
  _timeout (fold_left _handle_packet inbound self) = _timeout self.
Proof.
  induction inbound as [|parsed inbound IH]; intros self; [done|]. simpl.
  destruct (IH (_handle_packet self parsed)) as (-> & -> & -> & ->).
  apply handle_packet_frame.
Qed.

Lemma handle_packet_events_length self parsed :
  length (events (_handle_packet self parsed)) = length (events self).
Proof.
  unfold _handle_packet.
  destruct parsed as [packet|]; [|done].
  destruct (from_device packet) as [response|]; [|done].
  destruct (_response_events self !! request_id response).
  - simpl. by rewrite length_insert.
  - by destruct (handle_event_tables self response) as (_ & _ & -> & _).
Qed.

Lemma handle_packets_events_length inbound : forall self,
  length (events (fold_left _handle_packet inbound self)) = length (events self).
Proof.
  induction inbound as [|parsed inbound IH]; intros self; [done|]. simpl.
  by rewrite IH, handle_packet_events_length.
Qed.

(** [events_allocated] holds of a new client and is kept by every step of
    the caller and of the reader thread. *)
Lemma events_allocated_invariant :
  (forall timeout, events_allocated (new_client timeout)) /\
  (forall self, events_allocated self -> events_allocated (connect self)) /\
  (forall self to_device timeout,
     events_allocated self ->
     events_allocated (fst (_send_command_begin self to_device timeout))) /\
  (forall self parsed,
     events_allocated self -> events_allocated (_handle_packet self parsed)) /\
  (forall self waiting,
     events_allocated self ->
     events_allocated (fst (_send_command_finish self waiting))).
Proof.
  split; [|split; [|split; [|split]]].
  - intros timeout id ev Hlook. cbn in Hlook. by rewrite lookup_empty in Hlook.
  - intros self Hwf. unfold connect. by destruct (is_connected self).
  - intros self to_device timeout Hwf id ev.
    unfold _send_command_begin, _next_packet_id, _send_packet. cbn.
    destruct (_serial self) as [s|]; [destruct (is_open s), (write_fails s)|].
    all: cbn; rewrite ?delete_insert_eq, length_app; cbn.
    all: try (intros [_ Hlook]%lookup_delete_Some; apply Hwf in Hlook; lia).
    intros [[_ <-]|[_ Hlook]]%lookup_insert_Some; [lia|].
    apply Hwf in Hlook. lia.
  - intros self parsed Hwf id ev.
    destruct (handle_packet_frame self parsed) as (-> & _).
    rewrite handle_packet_events_length. apply Hwf.
  - intros self [[id0 ev0] timeout] Hwf id ev. unfold _send_command_finish.
    destruct (events self !! ev0) as [[]|];
      [destruct (_pending_responses self !! id0)|..]; cbn.
    all: intros [_ Hlook]%lookup_delete_Some; by apply Hwf in Hlook.
Qed.

(** The wait that runs out. *)
Lemma send_command_finish_timeout self id ev timeout :
  events self !! ev = Some false ->
  _send_command_finish self (id, ev, timeout)
  = (set_response_events (delete id (_response_events self)) self,
     inl (TimeoutError timeout)).
Proof. intros Hflag. unfold _send_command_finish. by rewrite Hflag. Qed.

(** A whole call that gets no answer: it raises [TimeoutError] and leaves
    no registration behind. *)
Lemma send_command_no_reply self to_device timeout inbound :
  events_allocated self -> can_write self ->
  Forall (fun parsed =>
            ~ replies_to ((_packet_id self + 1) mod 0xFFFFFFFF) parsed) inbound ->
  exists self2,
    _send_command inbound self to_device timeout
    = (self2,
       inl (TimeoutError
              match timeout with Some t => t | None => _timeout self end)) /\
    _response_events self2
    = delete ((_packet_id self + 1) mod 0xFFFFFFFF) (_response_events self) /\
    _packet_id self2 = (_packet_id self + 1) mod 0xFFFFFFFF /\
    _timeout self2 = _timeout self /\
    can_write self2 /\
    events_allocated self2.
Proof.
  intros Hwf Hcan Hno.
  destruct (send_command_begin_ok self to_device timeout Hcan)
    as (self1 & Hbegin & Hid & Hreg & Hevs & _ & _ & Htm & Hcan1).
  unfold _send_command. rewrite Hbegin.
  set (id := (_packet_id self + 1) mod 0xFFFFFFFF) in *.
  set (ev := length (events self)) in *.
  assert (still_waiting id ev self1) as Hwait.
  { split; [by rewrite Hreg, lookup_insert_eq|]. split.
    - rewrite Hevs. by rewrite lookup_app_r, Nat.sub_diag by done.
    - intros id' ev' Hlook Hne. rewrite Hreg, lookup_insert_ne in Hlook by done.
      apply Hwf in Hlook. subst ev. lia. }
  apply (handle_packets_still_waiting _ _ inbound) in Hwait as (_ & Hflag & _);
    [|done].
  rewrite send_command_finish_timeout by done.
  destruct (handle_packets_frame inbound self1) as (Hreg' & Hid' & Hser' & Htm').
  eexists. split; [reflexivity|]. simpl.
  rewrite Hreg', Hreg, delete_insert_eq.
  pose proof (handle_packets_events_length inbound self1) as Hlen.
  rewrite Hevs, length_app in Hlen.
  destruct (fold_left _handle_packet inbound self1) eqn:Hfold; simpl in *.
  repeat split; try congruence.
  - destruct Hcan1 as (s & Hs & ? & ?). exists s. simpl. by rewrite Hser'.
  - intros id' ev'. simpl. intros Hlook.
    apply lookup_delete_Some in Hlook as [_ Hlook]. apply Hwf in Hlook. lia.
Qed.

(** A call whose answer arrives in time returns that answer, and leaves
    the port and the registrations in order. *)
Lemma send_command_answered self to_device timeout :
  can_write self -> events_allocated self ->
  exists self',
    answered_command self to_device timeout
    = (self', inr (answer ((_packet_id self + 1) mod 0xFFFFFFFF))) /\
    can_write self' /\ events_allocated self'.
Proof.
  intros Hcan Hwf.
  destruct (send_command_begin_ok self to_device timeout Hcan)
    as (self1 & Hbegin & Hid & Hreg & Hevs & _ & _ & _ & Hcan1).
  unfold answered_command, _send_command. rewrite Hbegin.
  set (id := (_packet_id self + 1) mod 0xFFFFFFFF) in *.
  set (ev := length (events self)) in *.
  clearbody id. destruct self1; cbn in Hid, Hreg, Hevs. subst.
  cbn [fold_left]. unfold _handle_packet. cbn [from_device answer request_id].
  cbn [_response_events]. rewrite lookup_insert_eq.
  unfold _send_command_finish, set_events, set_pending_responses,
    set_response_events.
  cbn [events _pending_responses _response_events _timeout _serial _packet_id
       _on_message _on_gps _on_neighbor _on_emergency _on_log invoked].
  rewrite list_lookup_insert_eq by (rewrite length_app; simpl; lia).
  rewrite lookup_insert_eq.
  eexists. split; [reflexivity|]. split.
  - destruct Hcan1 as (s & Hs & ? & ?). by exists s.
  - intros id' ev'. cbn. rewrite delete_insert_eq.
    intros [_ Hlook]%lookup_delete_Some. apply Hwf in Hlook.
    rewrite length_insert, length_app. simpl. lia.
Qed.

(** C2: a command that goes out on the wire and gets no matching reply
    while its caller waits ends in [TimeoutError] (carrying the timeout in
    force, the caller's or the client's default) and its registration is
    removed; a reply with that request id handled afterwards finds no
    registration: it stores no response, fires no event and re-registers
    nothing, it is passed to the event dispatcher, where a reply payload
    (or none) changes nothing at all. *)
Theorem timeout_deregisters_and_late_reply_is_dropped
    (self : LoRaMeshClient) (to_device : ToDevice) (timeout : option Q)
    (inbound : list (option SerialPacket)) (late : SerialPacket)
    (reply : FromDevice)
    (Hwf : events_allocated self) (Hsent : can_write self)
    (Hnoreply :
       Forall (fun parsed =>
                 ~ replies_to ((_packet_id self + 1) mod 0xFFFFFFFF) parsed)
              inbound)
    (Hlate : from_device late = Some reply)
    (Hid : request_id reply = (_packet_id self + 1) mod 0xFFFFFFFF) :
  let id := (_packet_id self + 1) mod 0xFFFFFFFF in
  let T := match timeout with Some t => t | None => _timeout self end in
  exists self2,
    _send_command inbound self to_device timeout = (self2, inl (TimeoutError T)) /\
    _response_events self2 !! id = None /\
    let self3 := _handle_packet self2 (Some late) in
    self3 = _handle_event self2 reply /\
    _response_events self3 = _response_events self2 /\
    _pending_responses self3 = _pending_responses self2 /\
    events self3 = events self2 /\
    (if is_event (payload reply) then True else self3 = self2).
Proof.
  intros id T.
  destruct (send_command_no_reply self to_device timeout inbound Hwf Hsent Hnoreply)
    as (self2 & Hsend & Hreg & _).
  fold id in Hreg.
  exists self2. split; [done|].
  assert (_response_events self2 !! id = None) as Hnone
    by (by rewrite Hreg, lookup_delete_eq).
  split; [done|]. intros self3.
  assert (self3 = _handle_event self2 reply) as Hself3.
  { subst self3. unfold _handle_packet. rewrite Hlate. fold id in Hid.
    by rewrite Hid, Hnone. }
  split; [done|]. rewrite Hself3.
  destruct (handle_event_tables self2 reply) as (-> & -> & -> & _).
  repeat split.
  destruct (is_event (payload reply)) eqn:Hkind; [done|].
  by apply handle_event_not_event.
Qed.

(** A freshly connected client sends [get_info] with a timeout of two
    seconds; a log event arrives while it waits, and the result for request
    1 only after the timeout. *)
Lemma timeout_deregisters_and_late_reply_is_dropped_witness :
  let self := connect (new_client DEFAULT_TIMEOUT) in
  let inbound :=
    [Some {| packet_id := 0; to_device := None;
             from_device := Some {| request_id := 0; payload := Some log;
                                    body := [] |} |}] in
  let reply := {| request_id := 1; payload := Some result; body := [] |} in
  let late := {| packet_id := 0; to_device := None; from_device := Some reply |} in
  exists self2,
    _send_command inbound self get_info (Some 2%Q)
    = (self2, inl (TimeoutError 2%Q)) /\
    _response_events self2 !! 1 = None /\
    let self3 := _handle_packet self2 (Some late) in
    self3 = _handle_event self2 reply /\
    _response_events self3 = _response_events self2 /\
    _pending_responses self3 = _pending_responses self2 /\
    events self3 = events self2 /\
    self3 = self2.
Proof.
  intros self inbound reply late.
  apply (timeout_deregisters_and_late_reply_is_dropped
           self get_info (Some 2%Q) inbound late reply).
  - intros id ev Hlook. simpl in Hlook. by rewrite lookup_empty in Hlook.
  - eexists. by repeat split.
  - repeat constructor. intros (packet & response & Hp & Hfrom & Hreq).
    simplify_eq. simpl in Hfrom. by simplify_eq.
  - reflexivity.
  - reflexivity.
Defined.

(** *** Allocation and the pending requests *)

Lemma after_silent_commands_succ n to_device self :
  after_silent_commands (N.succ n) to_device self
  = fst (_send_command [] (after_silent_commands n to_device self) to_device None).
Proof. unfold after_silent_commands. by rewrite N.iter_succ. Qed.

(** While the counter goes once round, the request registered under id 1
    stays registered: every later call deregisters its own id only. *)
Lemma after_silent_commands_keeps_first to_device self ev n :
  can_write self -> events_allocated self ->
  _packet_id self = 1 -> _response_events self !! 1 = Some ev ->
  Z.of_N n <= 0xFFFFFFFE ->
  let self' := after_silent_commands n to_device self in
  can_write self' /\ events_allocated self' /\
  _packet_id self' = (1 + Z.of_N n) mod 0xFFFFFFFF /\
  _response_events self' !! 1 = Some ev.
Proof.
  intros Hcan Hwf Hid Hreg. induction n as [|n IH] using N.peano_ind; intros Hn.
  - simpl. by rewrite Hid.
  - rewrite after_silent_commands_succ.
    destruct IH as (Hcan' & Hwf' & Hid' & Hreg'); [lia|].
    destruct (send_command_no_reply
                (after_silent_commands n to_device self) to_device None [])
      as (self2 & -> & Hreg2 & Hid2 & _ & Hcan2 & Hwf2); [done..|].
    cbn [fst]. split; [done|]. split; [done|].
    rewrite Hid2, Hreg2, Hid'.
    rewrite Zplus_mod_idemp_l.
    replace (1 + Z.of_N n + 1) with (1 + Z.of_N (N.succ n)) by lia.
    split; [done|].
    rewrite lookup_delete_ne; [done|].
    destruct (decide (Z.of_N (N.succ n) = 0xFFFFFFFE)) as [->|].
    + done.
    + rewrite Z.mod_small by lia. lia.
Qed.

(** C1, the claim as stated fails: a client sends a command (id 1) and, while
    that request is still waiting, issues [0xFFFFFFFE] more commands that
    each time out; the next id allocated is again 1, which still backs the
    first request. *)
Lemma pending_id_is_allocated_again :
  let self0 := connect (new_client DEFAULT_TIMEOUT) in
  let self1 := fst (_send_command_begin self0 get_info None) in
  let self2 := after_silent_commands 0xFFFFFFFE get_info self1 in
  still_waiting 1 0%nat self1 /\
  _response_events self2 !! 1 = Some 0%nat /\
  fst (_next_packet_id self2) = 1 /\
  fst (_next_packet_id self2) ∈ dom (_response_events self2).
Proof.
  intros self0 self1 self2.
  assert (still_waiting 1 0%nat self1) as Hwait.
  { split; [reflexivity|]. split; [reflexivity|].
    intros id' ev' Hlook Hne. cbn in Hlook.
    by rewrite lookup_insert_ne, lookup_empty in Hlook. }
  split; [exact Hwait|].
  assert (can_write self1) as Hcan by (eexists; by repeat split).
  assert (events_allocated self1) as Hwf.
  { intros id ev Hlook. cbn in Hlook.
    apply lookup_insert_Some in Hlook as [[_ <-]|[_ Hlook]]; [simpl; lia|].
    by rewrite lookup_empty in Hlook. }
  assert (_packet_id self1 = 1) as Hid1 by reflexivity.
  pose proof (after_silent_commands_keeps_first
                get_info self1 0%nat 0xFFFFFFFE Hcan Hwf Hid1 (proj1 Hwait))
    as Hround.
  cbv zeta in Hround. fold self2 in Hround. clearbody self2.
  destruct Hround as (_ & _ & Hid & Hreg); [by compute|].
  assert (fst (_next_packet_id self2) = 1) as Hnext.
  { rewrite next_packet_id_eq. cbn [fst]. rewrite Hid. reflexivity. }
  split; [exact Hreg|]. split; [exact Hnext|].
  rewrite Hnext. apply elem_of_dom. rewrite Hreg. by eexists.
Qed.

(** C1, as amended: [_next_packet_id] returns the successor of the counter
    wrapped at the 32-bit boundary, and stores it as the new counter; it
    neither reads nor changes the pending requests, so that its result is
    the same whatever ids they hold. *)
Theorem next_packet_id_ignores_pending (self : LoRaMeshClient) :
  let '(id, self') := _next_packet_id self in
  id = (_packet_id self + 1) mod 0xFFFFFFFF /\
  0 <= id < 2 ^ 32 /\
  _packet_id self' = id /\
  _response_events self' = _response_events self /\
  _pending_responses self' = _pending_responses self /\
  forall registered pending,
    fst (_next_packet_id
           (set_response_events registered
              (set_pending_responses pending self))) = id.
Proof.
  rewrite next_packet_id_eq.
  pose proof (Z.mod_pos_bound (_packet_id self + 1) 0xFFFFFFFF).
  repeat split; try done; lia.
Qed.

End ClientProofs.

(** ** The message chunker *)

Module MessagingProofs.
Import Client Messaging ChunkingSpec.
Local Open Scope nat_scope.
Local Arguments String.append : simpl nomatch.

(** *** Slices and ranges *)

Lemma substring_length s : forall n m,
  String.length (substring n m s) = Nat.min m (String.length s - n).
Proof.
  induction s as [|c s IH]; intros [|n] [|m];
    cbn [substring String.length]; rewrite ?IH; lia.
Qed.

Lemma substring_add s : forall n a b,
  substring n (a + b) s = (substring n a s ++ substring (n + a) b s)%string.
Proof.
  induction s as [|c s IH]; intros n a b.
  - by destruct n, a, b.
  - destruct n as [|n].
    + destruct a as [|a]; [done|]. simpl. by rewrite (IH 0 a b).
    + simpl. apply IH.
Qed.

Lemma substring_all s : forall m, String.length s <= m -> substring 0 m s = s.
Proof.
  induction s as [|c s IH]; intros [|m] Hm; simpl in *; try done; try lia.
  f_equal. apply IH. lia.
Qed.

Lemma range_from_seq count : forall start step,
  range_from count start step = map (fun k => start + step * k) (seq 0 count).
Proof.
  induction count as [|count IH]; intros start step; simpl; [done|].
  f_equal; [lia|]. rewrite IH, <- seq_shift, map_map.
  apply map_ext. intros k. lia.
Qed.

Lemma chunks_eq text :
  map (fun i => slice text i (i + 160)) (range 0 (String.length text) 160)
  = map (chunk text) (seq 0 (chunk_count text)).
Proof.
  unfold range. rewrite range_from_seq, map_map.
  replace ((String.length text - 0 + 160 - 1) / 160) with (chunk_count text)
    by (unfold chunk_count; f_equal; lia).
  apply map_ext. intros k. unfold slice, chunk. f_equal. lia.
Qed.

Lemma enumerate_map {A} (f : nat -> A) n :
  enumerate (map f (seq 0 n)) = map (fun k => (k, f k)) (seq 0 n).
Proof.
  unfold enumerate. rewrite length_map, length_seq.
  generalize 0. induction n as [|n IH]; intros a; simpl; [done|].
  by rewrite IH.
Qed.

Lemma chunk_count_ceil text :
  0 < String.length text ->
  160 * (chunk_count text - 1) < String.length text <= 160 * chunk_count text.
Proof.
  unfold chunk_count. intros Hpos.
  pose proof (Nat.div_mod_eq (String.length text + 159) 160) as Hdiv.
  pose proof (Nat.mod_upper_bound (String.length text + 159) 160) as Hmod.
  lia.
Qed.

Lemma append_empty_r (s : string) : (s ++ "")%string = s.
Proof. induction s as [|c s IH]; simpl; congruence. Qed.

Lemma append_assoc (a b c : string) : (a ++ (b ++ c))%string = ((a ++ b) ++ c)%string.
Proof. induction a as [|x a IH]; simpl; congruence. Qed.

Lemma join_snoc (parts : list string) (last : string) :
  join (parts ++ [last]) = (join parts ++ last)%string.
Proof.
  induction parts as [|x parts IH]; cbn [join fold_right app].
  - by rewrite append_empty_r.
  - fold (join (parts ++ [last])). fold (join parts).
    by rewrite IH, append_assoc.
Qed.

Lemma join_chunks text k :
  join (map (chunk text) (seq 0 k)) = substring 0 (160 * k) text.
Proof.
  induction k as [|k IH].
  - by destruct text.
  - rewrite seq_S, map_app. cbn [map]. rewrite join_snoc, IH.
    replace (160 * S k) with (160 * k + 160) by lia.
    by rewrite substring_add.
Qed.

(** *** The methods, for any behaviour of [_send_command] *)

Section Methods.
Context {Self : Type}.
Variable _send_command : Self -> ToDevice -> option Q -> Self * (exn + FromDevice).
Variable while_asleep : Self -> Q -> Self.

Abbreviation send_parts := (send_parts _send_command while_asleep).
Abbreviation send_message := (send_message _send_command while_asleep).
Abbreviation broadcast := (broadcast _send_command while_asleep).

(** C7: a text of at most 180 characters makes exactly one call of
    [_send_command], with the whole text, and returns the empty string or
    raises what that call raised; a longer text with [auto_split=False]
    raises [ValueError], the message naming the limit of 180, before any
    command is issued: state and trace are untouched. *)
Theorem send_message_short_or_refused
    (text : string) (priority timeout : option Q) (auto_split : bool)
    (self : Self) (trace : list io) :
  (String.length text <= 180 ->
   send_message text priority timeout auto_split (self, trace)
   = let cmd := send_message_request "" text in
     let '(self', r) := _send_command self cmd timeout in
     ((self', trace ++ [SendCommand cmd timeout]),
      match r with inr _ => inr ""%string | inl e => inl e end)) /\
  (180 < String.length text -> auto_split = false ->
   send_message text priority timeout auto_split (self, trace)
   = ((self, trace),
      inl (ValueError
             ("Message too long (" ++ str (String.length text)
              ++ " chars). Max: 180" ++ String "010"
              "Use auto_split=True to automatically split into multiple messages, or split manually.")%string))).
Proof.
  split.
  - intros Hshort. unfold Messaging.send_message.
    apply Nat.leb_le in Hshort. rewrite Hshort.
    unfold bind, send_command, ret.
    by destruct (_send_command self _ timeout) as [self' [e|r]].
  - intros Hlong ->. unfold Messaging.send_message.
    apply Nat.leb_gt in Hlong. by rewrite Hlong.
Qed.

(** The loop over the parts from index [a] on: the calls for the parts before
    [m] return, the call for part [m] (if there is one) raises [e].
    [inv k] is what is known of the client when the command of part [k] is
    issued. *)
Lemma send_parts_trace (inv : nat -> Self -> Prop) text timeout (m : nat) (e : exn) :
  (forall k self, inv k self -> k < m ->
     exists self' response,
       _send_command self (part_request text k) timeout = (self', inr response)
       /\ inv (S k) (if k <? chunk_count text - 1
                     then while_asleep self' 0.3%Q else self')) ->
  (forall self, inv m self -> m < chunk_count text ->
     exists self',
       _send_command self (part_request text m) timeout = (self', inl e)) ->
  forall n a self trace,
    inv a self ->
    a + n = chunk_count text -> a <= m <= chunk_count text ->
    exists self',
      send_parts (map (fun k => (k, chunk text k)) (seq a n))
                 (chunk_count text) timeout (self, trace)
      = ((self',
          trace ++ flat_map (part_trace text timeout) (seq a (m - a))
          ++ (if m <? chunk_count text
              then [SendCommand (part_request text m) timeout] else [])),
         if m <? chunk_count text then inl e else inr tt).
Proof.
  intros Hok Hfail.
  induction n as [|n IH]; intros a self trace Hinv Han Ham.
  - assert (m = chunk_count text) as Hm by lia.
    replace (m - a) with 0 by lia. rewrite Hm, Nat.ltb_irrefl. simpl.
    exists self. by rewrite app_nil_r.
  - cbn [seq map Messaging.send_parts].
    fold (part_request text a). unfold bind at 1. unfold send_command at 1.
    destruct (decide (a = m)) as [->|Hne].
    + assert (m < chunk_count text) as Hlt by lia.
      destruct (Hfail self Hinv Hlt) as (self' & ->).
      replace (m - m) with 0 by lia. apply Nat.ltb_lt in Hlt. rewrite Hlt.
      by exists self'.
    + destruct (Hok a self Hinv) as (self' & response & -> & Hinv'); [lia|].
      replace (m - a) with (S (m - S a)) by lia.
      cbn [seq flat_map]. unfold part_trace at 1.
      destruct (a <? chunk_count text - 1) eqn:Hlast.
      * unfold bind at 1, time_sleep at 1.
        destruct (IH (S a) (while_asleep self' 0.3%Q)
                     ((trace ++ [SendCommand (part_request text a) timeout])
                      ++ [Sleep 0.3%Q])) as (self'' & ->); [done|lia..|].
        exists self''. by rewrite <- !app_assoc.
      * unfold bind at 1, ret at 1.
        destruct (IH (S a) self'
                     (trace ++ [SendCommand (part_request text a) timeout]))
          as (self'' & ->); [done|lia..|].
        exists self''. by rewrite <- !app_assoc.
Qed.

(** Every run of the loop has a first failing command or none: whatever
    [_send_command] does and decides by (the text, the state of the client,
    the port), there are [m], [e] and a description [inv] of the client
    before each command for which the commands of the first [m] chunks
    return and, when [m] is not the number of chunks, that of chunk [m]
    raises [e]. *)
Lemma every_run_has_a_first_failure text timeout (self : Self) :
  exists (m : nat) (e : exn) (inv : nat -> Self -> Prop),
    m <= chunk_count text /\
    inv 0 self /\
    (forall k self, inv k self -> k < m ->
       exists self' response,
         _send_command self (part_request text k) timeout = (self', inr response)
         /\ inv (S k) (if k <? chunk_count text - 1
                       then while_asleep self' 0.3%Q else self')) /\
    (forall self, inv m self -> m < chunk_count text ->
       exists self',
         _send_command self (part_request text m) timeout = (self', inl e)).
Proof.
  set (before := SplitRun.before_part _send_command while_asleep text timeout self).
  set (returns := fun k =>
         exists self' response,
           _send_command (before k) (part_request text k) timeout
           = (self', inr response)).
  set (raises := fun k e =>
         exists self',
           _send_command (before k) (part_request text k) timeout = (self', inl e)).
  assert (forall n,
            (forall k, k < n -> returns k) \/
            exists m e, m < n /\ (forall k, k < m -> returns k) /\ raises m e)
    as Hsearch.
  { induction n as [|n [Hall|(m & e & Hm & Hbefore & Hraise)]].
    - left. intros k Hk. lia.
    - destruct (_send_command (before n) (part_request text n) timeout)
        as [self' [e|response]] eqn:Hcall.
      + right. exists n, e. split; [lia|]. split; [done|]. by exists self'.
      + left. intros k Hk. destruct (decide (k = n)) as [->|Hne].
        * by exists self', response.
        * apply Hall. lia.
    - right. exists m, e. split; [lia|]. by split. }
  assert (forall m,
            (forall k, k < m -> returns k) ->
            forall k self0, self0 = before k -> k < m ->
              exists self' response,
                _send_command self0 (part_request text k) timeout
                = (self', inr response)
                /\ (if k <? chunk_count text - 1
                    then while_asleep self' 0.3%Q else self') = before (S k))
    as Hstep.
  { intros m Hbefore k self0 -> Hk.
    destruct (Hbefore k Hk) as (self' & response & Hcall).
    exists self', response. split; [done|].
    subst before. cbn [SplitRun.before_part]. by rewrite Hcall. }
  destruct (Hsearch (chunk_count text)) as [Hall|(m & e & Hm & Hbefore & Hraise)].
  - exists (chunk_count text), SerialException, (fun k self0 => self0 = before k).
    split; [done|]. split; [done|]. split; [by apply Hstep|].
    intros self0 _ Hlt. lia.
  - exists m, e, (fun k self0 => self0 = before k).
    split; [lia|]. split; [done|]. split; [by apply Hstep|].
    by intros self0 -> _.
Qed.

(** C8: a text longer than 180 characters sent with [auto_split=True] is
    cut into [N = ceil(len / 160)] consecutive chunks of 160 characters (the
    last one holding what is left), and chunk [i] of [N] goes out as the
    command with text ["[i/N] " + chunk], in order, with a sleep of 0.3 s
    after every command but the last.  When the commands of the first [m]
    chunks return and that of the next raises [e], nothing follows the
    failing command (no sleep, no further chunk) and [e] is what the call
    raises; when all [N] return the call returns the empty string.  What a
    command does may depend on the client it finds: [inv k] describes the
    client when the command of chunk [k] is issued, so that a failure may
    come from the state of the client or of the port as well as from the
    text. *)
Theorem split_message_sends_labelled_chunks
    (inv : nat -> Self -> Prop)
    (text : string) (priority timeout : option Q) (m : nat) (e : exn)
    (self : Self) (trace : list io)
    (Hlong : 180 < String.length text)
    (Hm : m <= chunk_count text)
    (Hinv : inv 0 self)
    (Hok : forall k self, inv k self -> k < m ->
       exists self' response,
         _send_command self (part_request text k) timeout = (self', inr response)
         /\ inv (S k) (if k <? chunk_count text - 1
                       then while_asleep self' 0.3%Q else self'))
    (Hfail : forall self, inv m self -> m < chunk_count text ->
       exists self',
         _send_command self (part_request text m) timeout = (self', inl e)) :
  let N := chunk_count text in
  160 * (N - 1) < String.length text <= 160 * N /\
  join (map (chunk text) (seq 0 N)) = text /\
  (forall k, k < N - 1 -> String.length (chunk text k) = 160) /\
  0 < String.length (chunk text (N - 1)) <= 160 /\
  exists self',
    send_message text priority timeout true (self, trace)
    = ((self',
        trace ++ flat_map (part_trace text timeout) (seq 0 m)
        ++ (if m <? N then [SendCommand (part_request text m) timeout] else [])),
       if m <? N then inl e else inr ""%string).
Proof.
  intros N.
  assert (160 * (N - 1) < String.length text <= 160 * N) as Hceil
    by (apply chunk_count_ceil; lia).
  split; [done|]. split; [|split; [|split]].
  - rewrite join_chunks. apply substring_all. lia.
  - intros k Hk. unfold chunk. rewrite substring_length. lia.
  - unfold chunk. rewrite substring_length. lia.
  - unfold Messaging.send_message.
    assert ((String.length text <=? 180) = false) as -> by (apply Nat.leb_gt; lia).
    cbn [negb]. unfold _send_split_message. cbv zeta.
    rewrite chunks_eq, length_map, length_seq, enumerate_map.
    destruct (send_parts_trace inv text timeout m e Hok Hfail
                (chunk_count text) 0 self trace) as (self' & Hloop);
      [done|lia..|].
    rewrite Nat.sub_0_r in Hloop.
    exists self'. unfold bind. rewrite Hloop. fold N.
    by destruct (m <? N).
Qed.

(** C9: [broadcast(text, t)] is [send_message(text, t)] with [t] bound to
    [priority]; [priority] has no influence on [send_message] or
    [_send_split_message]; so [broadcast(text, t)] is
    [send_message(text)] whatever [t] is, every command goes to
    [_send_command] without a timeout, and [_send_command] then waits with
    (and reports, when it times out) the client's default [_timeout]. *)
Theorem broadcast_drops_its_timeout
    (text : string) (t : option Q) (w : Self * list io) :
  broadcast text t w = send_message text t None false w /\
  (forall priority priority' timeout auto_split,
     send_message text priority timeout auto_split w
     = send_message text priority' timeout auto_split w /\
     _send_split_message _send_command while_asleep text priority timeout w
     = _send_split_message _send_command while_asleep text priority' timeout w) /\
  broadcast text t w = send_message text None None false w /\
  (forall t', broadcast text t' w = broadcast text t w) /\
  (exists new,
     snd (fst (broadcast text t w)) = snd w ++ new /\
     Forall (fun a => forall cmd timeout,
                        a = SendCommand cmd timeout -> timeout = None) new) /\
  (forall (client : LoRaMeshClient) cmd inbound,
     (forall waiting,
        snd (_send_command_begin client cmd None) = inr waiting ->
        snd waiting = _timeout client) /\
     (forall T,
        snd (Client._send_command inbound client cmd None) = inl (TimeoutError T) ->
        T = _timeout client)).
Proof.
  split; [done|]. split; [done|]. split; [done|]. split; [done|]. split.
  - unfold Messaging.broadcast, Messaging.send_message.
    destruct w as [self trace].
    destruct (String.length text <=? 180).
    + unfold bind, send_command, ret.
      destruct (_send_command self _ None) as [self' [e|r]]; cbn [fst snd].
      all: eexists; split; [done|].
      all: repeat constructor; by intros ? ? [= _ <-].
    + exists []. cbn. by rewrite app_nil_r.
  - intros client cmd inbound.
    assert (forall waiting,
              snd (_send_command_begin client cmd None) = inr waiting ->
              snd waiting = _timeout client) as Hbegin.
    { intros waiting. unfold _send_command_begin, _next_packet_id. cbn [fst snd].
      destruct (_send_packet _ _); cbn [snd]; [done|]. by intros [= <-]. }
    split; [done|]. intros T. unfold Client._send_command.
    destruct (_send_command_begin client cmd None) as [client1 [e|waiting]] eqn:Hb.
    + cbn [snd]. intros [= ->]. revert Hb.
      unfold _send_command_begin, _next_packet_id, _send_packet. cbn.
      destruct (_serial client) as [s|]; [|by intros [= _ [=]]].
      destruct (is_open s); [|by intros [= _ [=]]].
      destruct (write_fails s); by intros [= _ [=]].
    + specialize (Hbegin waiting eq_refl).
      destruct waiting as [[id ev] T']. cbn [snd] in *. subst T'.
      unfold _send_command_finish.
      destruct (events _ !! ev) as [[]|]; [|by intros [= ->]..].
      by destruct (_pending_responses _ !! id).
Qed.

End Methods.

(** *** The methods on the modelled client *)

(** "hello" to a device that answers, and 181 characters without
    [auto_split]. *)
Lemma send_message_short_or_refused_witness :
  let self := connect (new_client DEFAULT_TIMEOUT) in
  (String.length "hello" <= 180 /\
   snd (send_message answered_command idle "hello" None None false (self, []))
   = inr ""%string /\
   snd (fst (send_message answered_command idle "hello" None None false (self, [])))
   = [SendCommand (send_message_request "" "hello") None]) /\
  (180 < String.length text181 /\
   send_message answered_command idle text181 None None false (self, [])
   = ((self, []),
      inl (ValueError
             ("Message too long (181 chars). Max: 180" ++ String "010"
              "Use auto_split=True to automatically split into multiple messages, or split manually.")%string))).
Proof.
  intros self.
  pose proof (send_message_short_or_refused
                answered_command idle "hello" None None false self [])
    as [Hshort _].
  pose proof (send_message_short_or_refused
                answered_command idle text181 None None false self [])
    as [_ Hlong].
  assert (String.length "hello" <= 180) as H5 by (simpl; lia).
  assert (180 < String.length text181) as H181 by (vm_compute; lia).
  split.
  - split; [exact H5|]. rewrite (Hshort H5). split; reflexivity.
  - split; [exact H181|]. exact (Hlong H181 eq_refl).
Defined.

(** An answered call, with what it leaves of the client. *)
Lemma answered_command_state self to_device timeout :
  can_write self -> events_allocated self ->
  exists self',
    answered_command self to_device timeout
    = (self', inr (answer ((_packet_id self + 1) mod 0xFFFFFFFF))) /\
    can_write self' /\ events_allocated self' /\
    _packet_id self' = ((_packet_id self + 1) mod 0xFFFFFFFF)%Z /\
    _timeout self' = _timeout self.
Proof.
  intros Hcan Hwf.
  destruct (ClientProofs.send_command_begin_ok self to_device timeout Hcan)
    as (self1 & Hbegin & Hid & Hreg & Hevs & _ & _ & Htm & Hcan1).
  unfold answered_command, Client._send_command. rewrite Hbegin.
  set (id := ((_packet_id self + 1) mod 0xFFFFFFFF)%Z) in *.
  set (ev := length (events self)) in *.
  clearbody id. destruct self1; cbn in Hid, Hreg, Hevs, Htm. subst.
  cbn [fold_left]. unfold _handle_packet. cbn [from_device answer request_id].
  cbn [_response_events]. rewrite lookup_insert_eq.
  unfold _send_command_finish, set_events, set_pending_responses,
    set_response_events.
  cbn [events _pending_responses _response_events _timeout _serial _packet_id
       _on_message _on_gps _on_neighbor _on_emergency _on_log invoked].
  rewrite list_lookup_insert_eq by (rewrite length_app; simpl; lia).
  rewrite lookup_insert_eq.
  eexists. split; [reflexivity|]. split; [|split; [|by split]].
  - destruct Hcan1 as (s & Hs & ? & ?). by exists s.
  - intros id' ev'. cbn. rewrite delete_insert_eq.
    intros [_ Hlook]%lookup_delete_Some. apply Hwf in Hlook.
    rewrite length_insert, length_app. simpl. lia.
Qed.

(** The 400 characters of the specification's example.  To a device that
    answers: three commands, a sleep between them, none at the end.  To a
    device whose answer to the request with id 2 is lost, a failure that
    the state of the client decides and not the text: the second command
    raises [TimeoutError], no sleep follows it, the third chunk is never
    sent.  With the port lost during the first sleep: the second command
    raises [ConnectionError], and again nothing follows. *)
Lemma split_message_sends_labelled_chunks_witness :
  let self := connect (new_client DEFAULT_TIMEOUT) in
  180 < String.length text400 /\
  chunk_count text400 = 3 /\
  (exists self',
     send_message answered_command idle text400 None None true (self, [])
     = ((self',
         [SendCommand
            (send_message_request "" ("[1/3] " ++ substring 0 160 text400)) None;
          Sleep 0.3%Q;
          SendCommand
            (send_message_request "" ("[2/3] " ++ substring 160 160 text400)) None;
          Sleep 0.3%Q;
          SendCommand
            (send_message_request "" ("[3/3] " ++ substring 320 80 text400)) None]),
        inr ""%string)) /\
  (exists self',
     send_message (lossy_command 2) idle text400 None None true (self, [])
     = ((self',
         [SendCommand
            (send_message_request "" ("[1/3] " ++ substring 0 160 text400)) None;
          Sleep 0.3%Q;
          SendCommand
            (send_message_request "" ("[2/3] " ++ substring 160 160 text400)) None]),
        inl (TimeoutError DEFAULT_TIMEOUT))) /\
  (exists self',
     send_message answered_command SplitRun.unplugged
       text400 None None true (self, [])
     = ((self',
         [SendCommand
            (send_message_request "" ("[1/3] " ++ substring 0 160 text400)) None;
          Sleep 0.3%Q;
          SendCommand
            (send_message_request "" ("[2/3] " ++ substring 160 160 text400)) None]),
        inl (ConnectionError "Not connected to device"))).
Proof.
  intros self.
  assert (180 < String.length text400) as Hlong by (vm_compute; lia).
  assert (chunk_count text400 = 3) as Hcount by reflexivity.
  assert (can_write self) as Hcan0 by (eexists; repeat split; reflexivity).
  assert (events_allocated self) as Hwf0.
  { intros id ev Hlook. cbn in Hlook. by rewrite lookup_empty in Hlook. }
  split; [exact Hlong|]. split; [exact Hcount|]. split; [|split].
  - destruct (split_message_sends_labelled_chunks
                answered_command idle
                (fun _ self => can_write self /\ events_allocated self)
                text400 None None 3 SerialException self [])
      as (_ & _ & _ & _ & self' & Hsend).
    + exact Hlong.
    + rewrite Hcount. lia.
    + by split.
    + intros k self0 [Hcan Hwf] _.
      destruct (answered_command_state
                  self0 (part_request text400 k) None Hcan Hwf)
        as (self' & Heq & Hcan' & Hwf' & _).
      exists self', (answer ((_packet_id self0 + 1) mod 0xFFFFFFFF)).
      split; [exact Heq|]. unfold idle. by destruct (k <? _).
    + intros self0 _ Hlt. rewrite Hcount in Hlt. lia.
    + exists self'. rewrite Hsend. reflexivity.
  - destruct (split_message_sends_labelled_chunks
                (lossy_command 2) idle
                (fun k self =>
                   can_write self /\ events_allocated self /\
                   _packet_id self = Z.of_nat k /\
                   _timeout self = DEFAULT_TIMEOUT)
                text400 None None 1 (TimeoutError DEFAULT_TIMEOUT) self [])
      as (_ & _ & _ & _ & self' & Hsend).
    + exact Hlong.
    + rewrite Hcount. lia.
    + by repeat split.
    + intros k self0 (Hcan & Hwf & Hid & Htm) Hk.
      assert (k = 0) as -> by lia.
      destruct (answered_command_state
                  self0 (part_request text400 0) None Hcan Hwf)
        as (self' & Heq & Hcan' & Hwf' & Hid' & Htm').
      rewrite Hid in Heq, Hid'.
      exists self', (answer ((Z.of_nat 0 + 1) mod 0xFFFFFFFF)).
      unfold lossy_command. rewrite Hid.
      change ((Z.of_nat 0 + 1) mod 0xFFFFFFFF =? 2)%Z with false.
      split; [exact Heq|]. unfold idle.
      assert (can_write self' /\ events_allocated self' /\
              _packet_id self' = Z.of_nat 1 /\ _timeout self' = DEFAULT_TIMEOUT)
        as Hinv1.
      { repeat split; try done. congruence. }
      by destruct (0 <? _).
    + intros self0 (Hcan & Hwf & Hid & Htm) _.
      destruct (ClientProofs.send_command_no_reply
                  self0 (part_request text400 1) None [] Hwf Hcan)
        as (self2 & Heq & _); [by constructor|].
      exists self2. unfold lossy_command. rewrite Hid.
      change ((Z.of_nat 1 + 1) mod 0xFFFFFFFF =? 2)%Z with true.
      by rewrite Heq, Htm.
    + exists self'. rewrite Hsend. reflexivity.
  - destruct (split_message_sends_labelled_chunks
                answered_command SplitRun.unplugged
                (fun k self =>
                   match k with
                   | 0 => can_write self /\ events_allocated self
                   | _ => _serial self = None
                   end)
                text400 None None 1 (ConnectionError "Not connected to device")
                self [])
      as (_ & _ & _ & _ & self' & Hsend).
    + exact Hlong.
    + rewrite Hcount. lia.
    + by split.
    + intros k self0 Hinv Hk.
      assert (k = 0) as -> by lia. destruct Hinv as [Hcan Hwf].
      destruct (answered_command_state
                  self0 (part_request text400 0) None Hcan Hwf)
        as (self' & Heq & _).
      exists self', (answer ((_packet_id self0 + 1) mod 0xFFFFFFFF)).
      split; [exact Heq|]. rewrite Hcount. reflexivity.
    + intros self0 Hgone _.
      unfold answered_command, Client._send_command, _send_command_begin,
        _next_packet_id, _send_packet.
      cbn [fst snd _serial set_packet_id set_events set_response_events].
      rewrite Hgone. by eexists.
    + exists self'. rewrite Hsend. reflexivity.
Defined.

(** The same text when the answer to the second command is lost: the call
    raises the [TimeoutError] of that command, and the third chunk is never
    sent. *)
Example split_message_aborts_on_lost_answer :
  let self := connect (new_client DEFAULT_TIMEOUT) in
  let '((_, trace), r) :=
    send_message (lossy_command 2) idle text400 None None true (self, []) in
  r = inl (TimeoutError DEFAULT_TIMEOUT) /\
  trace
  = [SendCommand (send_message_request "" ("[1/3] " ++ substring 0 160 text400)) None;
     Sleep 0.3%Q;
     SendCommand (send_message_request "" ("[2/3] " ++ substring 160 160 text400)) None].
Proof. vm_compute. split; reflexivity. Qed.

End MessagingProofs.

(** ** More on the frame codec and the stream reader *)

Module SlipMore.
Import Slip FramingSpec ReaderSpec SlipProofs.

Lemma encoded_length data :
  (length data <= length (flat_map encode_byte data) <= 2 * length data)%nat.
Proof.
  induction data as [|b data IH]; simpl; [lia|].
  rewrite length_app. unfold encode_byte at 1 3.
  destruct (Byte.eqb b SLIP_END), (Byte.eqb b SLIP_ESC); simpl; lia.
Qed.

(** X1: an encoded frame is one delimiter, a body without any delimiter, and
    one delimiter; the body has between [len(data)] and [2 * len(data)]
    bytes. *)
Theorem slip_encode_delimits (data : bytes) :
  exists body,
    slip_encode data = SLIP_END :: body ++ [SLIP_END] /\
    (SLIP_END ∉ body) /\
    (length data <= length body <= 2 * length data)%nat.
Proof.
  exists (flat_map encode_byte data).
  split; [apply slip_encode_frame|]. split; [apply encoded_no_end|].
  apply encoded_length.
Qed.

Lemma decode_rest_app a : forall b x,
  decode_rest a = inr x ->
  decode_rest (a ++ b)
  = match decode_rest b with inr y => inr (x ++ y) | inl e => inl e end.
Proof.
  induction a as [|c|c d a IHa IHda] using bytes_ind2; intros b x.
  - intros [= <-]. cbn [app]. by destruct (decode_rest b).
  - cbn [decode_rest app]. byte_case c SLIP_ESC; [done|].
    destruct (negb (Byte.eqb c SLIP_END)); intros [= <-];
      by destruct (decode_rest b).
  - change (decode_rest ((c :: d :: a) ++ b)) with
      (if Byte.eqb c SLIP_ESC then
         if Byte.eqb d SLIP_ESC_END then
           match decode_rest (a ++ b) with
           | inr out => inr (SLIP_END :: out) | inl e => inl e end
         else if Byte.eqb d SLIP_ESC_ESC then
           match decode_rest (a ++ b) with
           | inr out => inr (SLIP_ESC :: out) | inl e => inl e end
         else inl (InvalidEscape d)
       else if negb (Byte.eqb c SLIP_END) then
         match decode_rest ((d :: a) ++ b) with
         | inr out => inr (c :: out) | inl e => inl e end
       else decode_rest ((d :: a) ++ b)).
    change (decode_rest (c :: d :: a)) with
      (if Byte.eqb c SLIP_ESC then
         if Byte.eqb d SLIP_ESC_END then
           match decode_rest a with
           | inr out => inr (SLIP_END :: out) | inl e => inl e end
         else if Byte.eqb d SLIP_ESC_ESC then
           match decode_rest a with
           | inr out => inr (SLIP_ESC :: out) | inl e => inl e end
         else inl (InvalidEscape d)
       else if negb (Byte.eqb c SLIP_END) then
         match decode_rest (d :: a) with
         | inr out => inr (c :: out) | inl e => inl e end
       else decode_rest (d :: a)).
    destruct (Byte.eqb c SLIP_ESC).
    + destruct (Byte.eqb d SLIP_ESC_END); [|destruct (Byte.eqb d SLIP_ESC_ESC)];
        [..|done].
      all: destruct (decode_rest a) as [|out] eqn:Ha; [done|]; intros [= <-].
      all: rewrite (IHa b out) by done; by destruct (decode_rest b).
    + destruct (negb (Byte.eqb c SLIP_END)).
      * destruct (decode_rest (d :: a)) as [|out] eqn:Hda; [done|]. intros [= <-].
        rewrite (IHda b out) by done. by destruct (decode_rest b).
      * intros Hda. by apply IHda.
Qed.

(** X2: decoding composes over concatenation: when [a] decodes to [x], the
    bytes [a ++ b] decode to [x] followed by what [b] decodes to, and raise
    what [b] raises. *)
Theorem slip_decode_app (a b x : bytes)
    (Ha : slip_decode a = Some (inr x)) :
  slip_decode (a ++ b)
  = match slip_decode b with
    | Some (inr y) => Some (inr (x ++ y))
    | other => other
    end.
Proof.
  rewrite !slip_decode_rest in *. injection Ha as Ha.
  rewrite (decode_rest_app a b x Ha). by destruct (decode_rest b).
Qed.

Lemma slip_decode_app_witness :
  slip_decode [x41; SLIP_END] = Some (inr [x41]) /\
  slip_decode ([x41; SLIP_END] ++ [SLIP_ESC; SLIP_ESC_END; x42])
  = Some (inr ([x41] ++ [SLIP_END; x42])).
Proof.
  split; [reflexivity|].
  exact (slip_decode_app [x41; SLIP_END] [SLIP_ESC; SLIP_ESC_END; x42] [x41]
           eq_refl).
Defined.

(** X3: the delimiters are optional for [slip_decode] and several frames
    may be decoded in one call: a bare escaped body decodes to its payload,
    and the concatenation of the frames of [xs] to the concatenation of
    [xs]. *)
Theorem slip_decode_frames :
  (forall x : bytes, slip_decode (flat_map encode_byte x) = Some (inr x)) /\
  (forall xs : list bytes,
     slip_decode (concat (map slip_encode xs)) = Some (inr (concat xs))).
Proof.
  split.
  - intros x. rewrite slip_decode_rest.
    pose proof (decode_rest_encoded x []) as H. rewrite app_nil_r in H.
    rewrite H. cbn [decode_rest]. by rewrite app_nil_r.
  - intros xs. rewrite slip_decode_rest. f_equal.
    induction xs as [|x xs IH]; [done|].
    cbn [map concat]. rewrite slip_encode_frame.
    change ((SLIP_END :: ?l) ++ ?r) with (SLIP_END :: (l ++ r)).
    change (decode_rest (SLIP_END :: ?l)) with (decode_rest l).
    rewrite <- app_assoc, decode_rest_encoded.
    change (decode_rest ([SLIP_END] ++ ?l)) with (decode_rest l).
    by rewrite IH.
Qed.

(** X4: decoding never produces more bytes than it was given. *)
Theorem slip_decode_length (data : bytes) :
  match slip_decode data with
  | Some (inr raw) => (length raw <= length data)%nat
  | Some (inl _) => True
  | None => False
  end.
Proof.
  rewrite slip_decode_rest.
  induction data as [|a|a b l IHl IHbl] using bytes_ind2.
  - simpl. lia.
  - simpl. destruct (Byte.eqb a SLIP_ESC); [done|].
    destruct (negb (Byte.eqb a SLIP_END)); simpl; lia.
  - change (decode_rest (a :: b :: l)) with
      (if Byte.eqb a SLIP_ESC then
         if Byte.eqb b SLIP_ESC_END then
           match decode_rest l with
           | inr out => inr (SLIP_END :: out) | inl e => inl e end
         else if Byte.eqb b SLIP_ESC_ESC then
           match decode_rest l with
           | inr out => inr (SLIP_ESC :: out) | inl e => inl e end
         else inl (InvalidEscape b)
       else if negb (Byte.eqb a SLIP_END) then
         match decode_rest (b :: l) with
         | inr out => inr (a :: out) | inl e => inl e end
       else decode_rest (b :: l)).
    destruct (Byte.eqb a SLIP_ESC).
    + destruct (Byte.eqb b SLIP_ESC_END); [|destruct (Byte.eqb b SLIP_ESC_ESC)];
        [..|done].
      all: destruct (decode_rest l); [done|]; cbn [length] in *; lia.
    + destruct (negb (Byte.eqb a SLIP_END)).
      * destruct (decode_rest (b :: l)); [done|]. cbn [length] in *. lia.
      * destruct (decode_rest (b :: l)); [done|]. cbn [length] in *. lia.
Qed.

(** *** The reader on whole streams *)

Lemma nonempty_cons (x : bytes) (xs : list bytes) :
  nonempty (x :: xs)
  = (if bool_decide (x = []) then [] else [x]) ++ nonempty xs.
Proof.
  unfold nonempty. rewrite filter_cons.
  destruct (decide (x <> [])) as [Hne|Heq].
  - by rewrite bool_decide_eq_false_2.
  - assert (x = []) as -> by (destruct x; [done|by destruct Heq]). done.
Qed.

Lemma encoded_nil_iff (x : bytes) :
  bool_decide (flat_map encode_byte x = []) = bool_decide (x = []).
Proof.
  apply bool_decide_ext. split; [apply encoded_nil|]. by intros ->.
Qed.

(** One frame fed to a reader that is between frames. *)
Lemma feed_encoded self x :
  _buffer self = [] ->
  feed self (slip_encode x)
  = {| _buffer := []; _in_packet := true;
       _packets := _packets self ++ (if bool_decide (x = []) then [] else [x]) |}.
Proof.
  intros Hbuf. rewrite slip_encode_frame, feed_frame by apply encoded_no_end.
  rewrite feed_end, Hbuf. cbn [_packets].
  rewrite bool_decide_eq_true_2 by done. rewrite andb_false_r.
  pose proof (decode_rest_encoded x []) as Hx. rewrite app_nil_r in Hx.
  rewrite Hx. cbn [decode_rest]. by rewrite app_nil_r, encoded_nil_iff.
Qed.

Lemma feed_encoded_frames xs : forall self,
  _buffer self = [] ->
  feed self (concat (map slip_encode xs))
  = {| _buffer := [];
       _in_packet := match xs with [] => _in_packet self | _ => true end;
       _packets := _packets self ++ nonempty xs |}.
Proof.
  induction xs as [|x xs IH]; intros [buf inp pks] Hbuf;
    cbn in Hbuf; subst buf.
  - cbn. by rewrite app_nil_r.
  - cbn [map concat]. rewrite feed_app, feed_encoded by done.
    rewrite IH by done. cbn [_packets _in_packet].
    rewrite nonempty_cons, app_assoc. by destruct xs.
Qed.

(** X5: a reader that is between frames and is fed the frames of the
    payloads [xs] back to back queues exactly the non-empty payloads, in
    order, after what it had queued, and is between frames again. *)
Theorem feed_frames_in_order (self : SlipReader) (xs : list bytes)
    (Hbuf : _buffer self = []) :
  feed self (concat (map slip_encode xs))
  = {| _buffer := [];
       _in_packet := match xs with [] => _in_packet self | _ => true end;
       _packets := _packets self ++ nonempty xs |}.
Proof. by apply feed_encoded_frames. Qed.

Lemma feed_frames_in_order_witness :
  _buffer new_reader = [] /\
  feed new_reader (concat (map slip_encode [[x01; xc0]; []; [xdb]]))
  = {| _buffer := []; _in_packet := true;
       _packets := [[x01; xc0]; [xdb]] |}.
Proof.
  split; [reflexivity|].
  exact (feed_frames_in_order new_reader [[x01; xc0]; []; [xdb]] eq_refl).
Defined.

Lemma feed_out_of_packet noise : forall self,
  _in_packet self = false -> SLIP_END ∉ noise -> feed self noise = self.
Proof.
  induction noise as [|b noise IH]; intros self Hout Hno; [done|].
  apply not_elem_of_cons in Hno as [Hb Hno]. cbn [feed fold_left].
  assert (feed_byte self b = self) as ->; [|by apply IH].
  unfold feed_byte. apply not_eq_sym, eqb_neq in Hb. by rewrite Hb, Hout.
Qed.

(** X6: what a new reader receives before the first delimiter is thrown
    away: it leaves the reader as new, and the frames that follow are
    queued as if nothing had preceded them. *)
Theorem noise_before_first_delimiter (noise : bytes) (xs : list bytes)
    (Hnoise : SLIP_END ∉ noise) :
  feed new_reader noise = new_reader /\
  _packets (feed new_reader (noise ++ concat (map slip_encode xs))) = nonempty xs.
Proof.
  assert (feed new_reader noise = new_reader) as Hnew
    by (by apply feed_out_of_packet).
  split; [done|].
  rewrite feed_app, Hnew.
  pose proof (feed_encoded_frames xs new_reader eq_refl) as Hfeed.
  by rewrite Hfeed.
Qed.

Lemma noise_before_first_delimiter_witness :
  (SLIP_END ∉ [x41; SLIP_ESC; x42]) /\
  feed new_reader [x41; SLIP_ESC; x42] = new_reader /\
  _packets (feed new_reader ([x41; SLIP_ESC; x42]
                             ++ concat (map slip_encode [[x07]])))
  = [[x07]].
Proof.
  assert (SLIP_END ∉ [x41; SLIP_ESC; x42]) as Hno.
  { intros H. repeat (apply elem_of_cons in H as [H|H]; [discriminate H|]).
    by apply elem_of_nil in H. }
  split; [exact Hno|].
  exact (noise_before_first_delimiter [x41; SLIP_ESC; x42] [[x07]] Hno).
Defined.

Lemma decode_rest_nonempty buf decoded :
  SLIP_END ∉ buf -> buf <> [] -> decode_rest buf = inr decoded -> decoded <> [].
Proof.
  destruct buf as [|b buf]; [done|]. intros Hno _.
  apply not_elem_of_cons in Hno as [Hb _].
  cbn [decode_rest]. destruct (Byte.eqb b SLIP_ESC).
  - destruct buf as [|n buf]; [done|].
    destruct (Byte.eqb n SLIP_ESC_END); [|destruct (Byte.eqb n SLIP_ESC_ESC)];
      [..|done].
    all: destruct (decode_rest buf); [done|]; by intros [= <-].
  - apply not_eq_sym, eqb_neq in Hb. rewrite Hb. cbn [negb].
    destruct (decode_rest buf); [done|]. by intros [= <-].
Qed.

Lemma feed_byte_ok self b : reader_ok self -> reader_ok (feed_byte self b).
Proof.
  intros (Hbuf & Hout & Hpks). unfold feed_byte.
  byte_case b SLIP_END.
  - split; [apply not_elem_of_nil|]. split; [done|]. cbn [_packets].
    destruct (_in_packet self && negb (bool_decide (_buffer self = [])))
      eqn:Hclose; [|done].
    apply andb_true_iff in Hclose as [_ Hne].
    apply negb_true_iff, bool_decide_eq_false in Hne.
    rewrite slip_decode_rest.
    destruct (decode_rest (_buffer self)) as [|decoded] eqn:Hdec; [done|].
    apply Forall_app. split; [done|]. constructor; [|done].
    by apply (decode_rest_nonempty (_buffer self)).
  - destruct (_in_packet self) eqn:Hin; [|by repeat split; auto].
    split; [|by split]. cbn [_buffer]. rewrite elem_of_app, list_elem_of_singleton.
    intros [?|?]; [done|congruence].
Qed.

(** X7: the reader keeps its frame in progress free of delimiters (and
    empty before the first delimiter) and never queues an empty frame:
    [reader_ok] holds of a new and of a cleared reader, and [feed] and
    [get_packet] keep it. *)
Theorem reader_ok_invariant :
  reader_ok new_reader /\
  (forall self, reader_ok (clear self)) /\
  (forall self data, reader_ok self -> reader_ok (feed self data)) /\
  (forall self, reader_ok self -> reader_ok (snd (get_packet self))).
Proof.
  assert (reader_ok new_reader) as Hnew.
  { split; [apply not_elem_of_nil|]. by split. }
  split; [done|]. split; [done|]. split.
  - intros self data. revert self.
    induction data as [|b data IH]; intros self Hok; [done|].
    cbn [feed fold_left]. apply IH. by apply feed_byte_ok.
  - intros self (Hbuf & Hout & Hpks). unfold get_packet.
    destruct (_packets self) as [|p ps] eqn:Hq; cbn [snd].
    + split; [done|]. split; [done|]. by rewrite Hq.
    + split; [done|]. split; [done|]. cbn [_packets].
      by apply Forall_cons in Hpks as [_ ?].
Qed.

(** X8: [feed] only ever adds to the end of the queue, and what it adds
    does not depend on what is queued: frames still waiting are neither
    lost nor overtaken, and [get_packet] after a [feed] returns the frame
    that was first in line before it. *)
Theorem feed_appends_to_queue (self : SlipReader) (data : bytes) :
  let fresh :=
    _packets (feed {| _buffer := _buffer self; _in_packet := _in_packet self;
                      _packets := [] |} data) in
  _packets (feed self data) = _packets self ++ fresh /\
  forall p ps,
    _packets self = p :: ps ->
    get_packet (feed self data)
    = (Some p,
       {| _buffer := _buffer (feed self data);
          _in_packet := _in_packet (feed self data);
          _packets := ps ++ fresh |}).
Proof.
  intros fresh. destruct self as [buf inp pks]. cbn [_buffer _in_packet _packets] in *.
  assert (_packets (feed (mkReader buf inp pks) data) = pks ++ fresh) as Hq
    by (by rewrite feed_queue).
  split; [done|]. intros p ps ->. unfold get_packet. by rewrite Hq.
Qed.

(** X9: [n] turns of the [get_packet] loop of the client's reader thread
    return the first [n] queued frames in the order of their arrival and
    leave the others queued; the frame in progress is untouched. *)
Theorem get_packets_takes (n : nat) (self : SlipReader) :
  get_packets n self
  = (take n (_packets self),
     {| _buffer := _buffer self; _in_packet := _in_packet self;
        _packets := drop n (_packets self) |}).
Proof.
  destruct self as [buf inp pks]. cbn [_buffer _in_packet _packets].
  revert pks. induction n as [|n IH]; intros pks; [done|].
  cbn [get_packets]. unfold has_packet, get_packet. cbn [_packets].
  destruct pks as [|p pks]; [done|].
  rewrite bool_decide_eq_true_2 by (simpl; lia).
  cbn [_buffer _in_packet]. by rewrite IH.
Qed.

(** X10: delimiters that follow one another enqueue nothing: any run of
    delimiters acts as a single one. *)
Theorem repeated_delimiters (self : SlipReader) (n : nat) :
  feed self (replicate (S n) SLIP_END) = feed self [SLIP_END].
Proof.
  induction n as [|n IH]; [done|].
  rewrite replicate_S_end, feed_app, IH, !feed_end. cbn [_buffer _in_packet _packets].
  by rewrite bool_decide_eq_true_2 by done.
Qed.

End SlipMore.

(** ** More on the correlation engine and the event dispatcher *)

Module ClientMore.
Import Client Dispatcher ClientProofs.

(** *** Packet ids *)

Lemma next_after_allocations n self :
  fst (_next_packet_id (after_allocations n self))
  = (_packet_id self + Z.of_N n + 1) mod 0xFFFFFFFF.
Proof.
  rewrite next_packet_id_eq. cbn [fst].
  induction n as [|n IH] using N.peano_ind.
  - cbn. by rewrite Z.add_0_r.
  - rewrite after_allocations_succ, next_packet_id_eq. cbn [snd _packet_id set_packet_id].
    rewrite IH, Zplus_mod_idemp_l. f_equal. lia.
Qed.

(** X11: two allocations less than [2^32 - 1] calls apart never return the
    same id: an id comes back only after the counter has gone all the way
    round. *)
Theorem ids_distinct_within_a_cycle (self : LoRaMeshClient) (n m : N)
    (Hnm : (n < m)%N) (Hcycle : (m < n + 0xFFFFFFFF)%N) :
  fst (_next_packet_id (after_allocations n self))
  <> fst (_next_packet_id (after_allocations m self)).
Proof.
  rewrite !next_after_allocations. intros Heq.
  assert (((_packet_id self + Z.of_N m + 1)
           - (_packet_id self + Z.of_N n + 1)) mod 0xFFFFFFFF = 0) as Hdiff.
  { rewrite Zminus_mod, Heq, Z.sub_diag. reflexivity. }
  replace (_packet_id self + Z.of_N m + 1 - (_packet_id self + Z.of_N n + 1))
    with (Z.of_N m - Z.of_N n) in Hdiff by lia.
  rewrite Z.mod_small in Hdiff by lia. lia.
Qed.

Lemma ids_distinct_within_a_cycle_witness :
  (0 < 0xFFFFFFFE)%N /\ (0xFFFFFFFE < 0 + 0xFFFFFFFF)%N /\
  fst (_next_packet_id (after_allocations 0 (new_client DEFAULT_TIMEOUT)))
  <> fst (_next_packet_id
            (after_allocations 0xFFFFFFFE (new_client DEFAULT_TIMEOUT))).
Proof.
  assert (0 < 0xFFFFFFFE)%N as H1 by reflexivity.
  assert (0xFFFFFFFE < 0 + 0xFFFFFFFF)%N as H2 by reflexivity.
  split; [exact H1|]. split; [exact H2|].
  exact (ids_distinct_within_a_cycle
           (new_client DEFAULT_TIMEOUT) 0 0xFFFFFFFE H1 H2).
Defined.

(** *** Calls that cannot write *)

(** X12: on a port that is closed, absent, or refuses the write,
    [_send_command] raises at once ([ConnectionError] when not connected,
    the port's exception otherwise) whatever is inbound: nothing is written,
    no stored response is touched, the registration under the id is
    removed, and the id itself is used up. *)
Theorem send_command_cannot_write
    (self : LoRaMeshClient) (to_device : ToDevice) (timeout : option Q)
    (inbound : list (option SerialPacket))
    (Hport : ~ can_write self) :
  let id := (_packet_id self + 1) mod 0xFFFFFFFF in
  exists self',
    _send_command inbound self to_device timeout
    = (self',
       inl (if is_connected self then SerialException
            else ConnectionError "Not connected to device")) /\
    _serial self' = _serial self /\
    _pending_responses self' = _pending_responses self /\
    _response_events self' = delete id (_response_events self) /\
    _packet_id self' = id /\
    invoked self' = invoked self.
Proof.
  intros id. unfold _send_command, _send_command_begin, _next_packet_id,
    _send_packet, is_connected.
  cbn [fst snd _serial set_packet_id set_events set_response_events _packet_id].
  destruct (_serial self) as [s|] eqn:Hs.
  - destruct (is_open s) eqn:Hopen.
    + destruct (write_fails s) eqn:Hfail.
      * eexists. split; [reflexivity|]. cbn. by rewrite delete_insert_eq.
      * destruct Hport. by exists s.
    + eexists. split; [reflexivity|]. cbn. by rewrite delete_insert_eq.
  - eexists. split; [reflexivity|]. cbn. by rewrite delete_insert_eq.
Qed.

Lemma send_command_cannot_write_witness :
  let self := new_client DEFAULT_TIMEOUT in
  ~ can_write self /\
  exists self',
    _send_command [] self get_info None
    = (self', inl (ConnectionError "Not connected to device")) /\
    _serial self' = _serial self /\
    _pending_responses self' = _pending_responses self /\
    _response_events self' = delete 1 (_response_events self) /\
    _packet_id self' = 1 /\
    invoked self' = invoked self.
Proof.
  intros self.
  assert (~ can_write self) as Hport by (intros (s & Hs & _); discriminate Hs).
  split; [exact Hport|].
  exact (send_command_cannot_write self get_info None [] Hport).
Defined.

(** *** Calls that are answered *)

Lemma send_command_begin_serial self to_device timeout s :
  _serial self = Some s -> is_open s = true -> write_fails s = false ->
  _serial (fst (_send_command_begin self to_device timeout))
  = Some {| is_open := true; write_fails := false;
            written :=
              written s
              ++ [{| packet_id := (_packet_id self + 1) mod 0xFFFFFFFF;
                     to_device := Some to_device; from_device := None |}] |}.
Proof.
  intros Hs Hopen Hfail.
  unfold _send_command_begin, _next_packet_id, _send_packet.
  cbn [fst snd _serial set_packet_id set_events set_response_events _packet_id].
  by rewrite Hs, Hopen, Hfail.
Qed.

Lemma send_command_finish_serial self waiting :
  _serial (fst (_send_command_finish self waiting)) = _serial self.
Proof.
  destruct waiting as [[id ev] timeout]. unfold _send_command_finish.
  destruct (events self !! ev) as [[]|]; [|done..].
  by destruct (_pending_responses self !! id).
Qed.

(** X13: on a port that takes the write, every call of [_send_command]
    writes exactly one packet, which carries the id the call waits on and
    the command, whether the call is answered or times out and whatever
    arrives meanwhile. *)
Theorem send_command_writes_one_packet
    (self : LoRaMeshClient) (to_device : ToDevice) (timeout : option Q)
    (inbound : list (option SerialPacket)) (s : Serial)
    (Hs : _serial self = Some s) (Hopen : is_open s = true)
    (Hfail : write_fails s = false) :
  _serial (fst (_send_command inbound self to_device timeout))
  = Some {| is_open := true; write_fails := false;
            written :=
              written s
              ++ [{| packet_id := (_packet_id self + 1) mod 0xFFFFFFFF;
                     to_device := Some to_device; from_device := None |}] |}.
Proof.
  pose proof (send_command_begin_serial self to_device timeout s Hs Hopen Hfail)
    as Hbegin.
  assert (can_write self) as Hcan by (by exists s).
  destruct (send_command_begin_ok self to_device timeout Hcan)
    as (self1 & Heq & _).
  unfold _send_command. rewrite Heq in *. cbn [fst] in Hbegin.
  rewrite send_command_finish_serial.
  by destruct (handle_packets_frame inbound self1) as (_ & _ & -> & _).
Qed.

Lemma send_command_writes_one_packet_witness :
  let self := connect (new_client DEFAULT_TIMEOUT) in
  let s := {| is_open := true; write_fails := false; written := [] |} in
  _serial self = Some s /\
  _serial (fst (_send_command [] self (ping "NODE_B") None))
  = Some {| is_open := true; write_fails := false;
            written := [{| packet_id := 1; to_device := Some (ping "NODE_B");
                           from_device := None |}] |}.
Proof.
  intros self s. split; [reflexivity|].
  exact (send_command_writes_one_packet
           self (ping "NODE_B") None [] s eq_refl eq_refl eq_refl).
Defined.

(** One inbound packet, seen from the caller waiting on [ev] for [id]. *)
Lemma handle_packet_reply id (ev : event) self parsed :
  _response_events self !! id = Some ev ->
  (forall id' ev', _response_events self !! id' = Some ev' -> id' <> id -> ev' <> ev) ->
  (ev < length (events self))%nat ->
  let self' := _handle_packet self parsed in
  match reply_of id parsed with
  | Some response =>
    events self' !! ev = Some true /\
    _pending_responses self' !! id = Some response
  | None =>
    events self' !! ev = events self !! ev /\
    _pending_responses self' !! id = _pending_responses self !! id
  end.
Proof.
  intros Hreg Halias Hlen. unfold reply_of, _handle_packet.
  destruct parsed as [packet|]; [|done].
  destruct (from_device packet) as [response|]; [|done]. cbv zeta.
  case_bool_decide as Hid.
  - rewrite Hid, Hreg. cbn. rewrite list_lookup_insert_eq by done.
    by rewrite lookup_insert_eq.
  - destruct (_response_events self !! request_id response) as [ev'|] eqn:Hev'.
    + cbn. rewrite list_lookup_insert_ne by (by apply (Halias _ _ Hev')).
      by rewrite lookup_insert_ne.
    + by destruct (handle_event_tables self response) as (_ & -> & -> & _).
Qed.

Lemma handle_packets_reply id (ev : event) inbound : forall self found,
  _response_events self !! id = Some ev ->
  (forall id' ev', _response_events self !! id' = Some ev' -> id' <> id -> ev' <> ev) ->
  (ev < length (events self))%nat ->
  events self !! ev = Some (bool_decide (is_Some found)) ->
  (forall response, found = Some response ->
                    _pending_responses self !! id = Some response) ->
  let self' := fold_left _handle_packet inbound self in
  let found' :=
    fold_left
      (fun found parsed =>
         match reply_of id parsed with Some response => Some response | None => found end)
      inbound found in
  events self' !! ev = Some (bool_decide (is_Some found')) /\
  (forall response, found' = Some response ->
                    _pending_responses self' !! id = Some response).
Proof.
  induction inbound as [|parsed inbound IH];
    intros self found Hreg Halias Hlen Hflag Hstored; [done|].
  cbn [fold_left].
  pose proof (handle_packet_reply id ev self parsed Hreg Halias Hlen) as Hstep.
  destruct (handle_packet_frame self parsed) as (Hev & _).
  cbv zeta in Hstep.
  apply IH.
  - by rewrite Hev.
  - by rewrite Hev.
  - by rewrite handle_packet_events_length.
  - destruct (reply_of id parsed) as [response|].
    + destruct Hstep as [-> _]. by rewrite bool_decide_eq_true_2.
    + destruct Hstep as [-> _]. done.
  - intros response Hfound. destruct (reply_of id parsed) as [response'|].
    + destruct Hstep as [_ ->]. done.
    + destruct Hstep as [_ ->]. by apply Hstored.
Qed.

Lemma reply_of_id id parsed response :
  reply_of id parsed = Some response -> request_id response = id.
Proof.
  unfold reply_of. destruct parsed as [packet|]; [|done].
  destruct (from_device packet); [|done].
  case_bool_decide; by intros [= <-].
Qed.

Lemma last_reply_id id inbound response :
  last_reply id inbound = Some response -> request_id response = id.
Proof.
  unfold last_reply.
  assert (forall found : option FromDevice,
            (forall r, found = Some r -> request_id r = id) ->
            fold_left
              (fun found parsed =>
                 match reply_of id parsed with
                 | Some response => Some response | None => found end)
              inbound found = Some response ->
            request_id response = id) as Hgen.
  { induction inbound as [|parsed inbound IH]; intros found Hfound; cbn.
    - apply Hfound.
    - apply IH. intros r. destruct (reply_of id parsed) as [r'|] eqn:Hr.
      + intros [= <-]. by apply (reply_of_id id parsed).
      + apply Hfound. }
  by apply Hgen.
Qed.

(** X14: a call returns the answer that carries its own id, however many
    events and answers to other requests arrive around it; when several
    answers with its id arrive before the caller resumes, it returns the
    last one.  It leaves no registration and no stored response behind. *)
Theorem send_command_returns_its_reply
    (self : LoRaMeshClient) (to_device : ToDevice) (timeout : option Q)
    (inbound : list (option SerialPacket)) (response : FromDevice)
    (Hwf : events_allocated self) (Hsent : can_write self)
    (Hreply :
       last_reply ((_packet_id self + 1) mod 0xFFFFFFFF) inbound = Some response) :
  let id := (_packet_id self + 1) mod 0xFFFFFFFF in
  exists self',
    _send_command inbound self to_device timeout = (self', inr response) /\
    request_id response = id /\
    _response_events self' = delete id (_response_events self) /\
    _pending_responses self' !! id = None.
Proof.
  intros id.
  destruct (send_command_begin_ok self to_device timeout Hsent)
    as (self1 & Hbegin & Hid & Hreg & Hevs & _ & _ & _ & _).
  fold id in Hbegin, Hid, Hreg, Hreply.
  set (ev := length (events self)) in *.
  destruct (handle_packets_reply id ev inbound self1 None) as [Hflag Hstored].
  - by rewrite Hreg, lookup_insert_eq.
  - intros id' ev' Hlook Hne. rewrite Hreg, lookup_insert_ne in Hlook by done.
    apply Hwf in Hlook. subst ev. lia.
  - rewrite Hevs, length_app. simpl. lia.
  - rewrite Hevs, lookup_app_r, Nat.sub_diag by done. done.
  - done.
  - fold (last_reply id inbound) in Hflag, Hstored. rewrite Hreply in Hflag.
    rewrite bool_decide_eq_true_2 in Hflag by done.
    specialize (Hstored response Hreply).
    unfold _send_command. rewrite Hbegin. unfold _send_command_finish.
    rewrite Hflag, Hstored.
    destruct (handle_packets_frame inbound self1) as (Hreg' & _).
    eexists. split; [reflexivity|]. split; [|split].
    + by apply (last_reply_id id inbound).
    + cbn. by rewrite Hreg', Hreg, delete_insert_eq.
    + cbn. by rewrite lookup_delete_eq.
Qed.

(** A log event, an answer for request 1 and a second answer for it arrive
    while the caller of [get_info] waits: it returns the second. *)
Lemma send_command_returns_its_reply_witness :
  let self := connect (new_client DEFAULT_TIMEOUT) in
  let first := {| request_id := 1; payload := Some info; body := [x01] |} in
  let second := {| request_id := 1; payload := Some info; body := [x02] |} in
  let inbound :=
    [Some {| packet_id := 0; to_device := None;
             from_device := Some {| request_id := 0; payload := Some log;
                                    body := [] |} |};
     Some {| packet_id := 0; to_device := None; from_device := Some first |};
     Some {| packet_id := 0; to_device := None; from_device := Some second |}] in
  last_reply 1 inbound = Some second /\
  exists self',
    _send_command inbound self get_info None = (self', inr second) /\
    request_id second = 1 /\
    _response_events self' = delete 1 (_response_events self) /\
    _pending_responses self' !! 1 = None.
Proof.
  intros self first second inbound.
  assert (last_reply 1 inbound = Some second) as Hlast by reflexivity.
  split; [exact Hlast|].
  apply (send_command_returns_its_reply self get_info None inbound second).
  - intros id ev Hlook. cbn in Hlook. by rewrite lookup_empty in Hlook.
  - eexists. repeat split; reflexivity.
  - exact Hlast.
Defined.

(** *** The event dispatcher *)

(** X15: an inbound envelope whose request id is not registered and whose
    payload is an event goes to the callback registered for that kind of
    event, once, with the envelope's payload, and to no other; with the
    callback cleared it is dropped and nothing changes.  Registering again
    replaces the callback, and registering for one kind leaves the slots of
    the other kinds alone. *)
Theorem dispatch_to_registered_callback
    (kind : payload_kind) (self : LoRaMeshClient) (packet : SerialPacket)
    (response : FromDevice) (f g : callback)
    (Hkind : is_event (Some kind) = true)
    (Hfrom : from_device packet = Some response)
    (Hpayload : payload response = Some kind)
    (Hunsolicited : _response_events self !! request_id response = None) :
  _handle_packet (register kind (Some f) self) (Some packet)
  = set_invoked (invoked self ++ [(f, response)]) (register kind (Some f) self) /\
  _handle_packet (register kind None self) (Some packet)
  = register kind None self /\
  register kind (Some g) (register kind (Some f) self)
  = register kind (Some g) self /\
  forall kind', kind' <> kind ->
    slot kind' (register kind (Some f) self) = slot kind' self.
Proof.
  destruct kind; try discriminate Hkind.
  all: unfold _handle_packet, _handle_event; rewrite Hfrom; cbv zeta.
  all: cbn [register on_message on_gps on_neighbor on_emergency on_log
            _response_events].
  all: rewrite Hunsolicited, Hpayload.
  all: repeat split; try reflexivity.
  all: intros kind' Hne; by destruct kind'.
Qed.

Lemma dispatch_to_registered_callback_witness :
  let self := connect (new_client DEFAULT_TIMEOUT) in
  let response :=
    {| request_id := 0; payload := Some emergency_received; body := [x07] |} in
  let packet := {| packet_id := 0; to_device := None; from_device := Some response |} in
  _handle_packet (register emergency_received (Some 4%nat) self) (Some packet)
  = set_invoked [(4%nat, response)] (register emergency_received (Some 4%nat) self) /\
  _handle_packet (register emergency_received None self) (Some packet)
  = register emergency_received None self /\
  register emergency_received (Some 5%nat)
    (register emergency_received (Some 4%nat) self)
  = register emergency_received (Some 5%nat) self /\
  forall kind', kind' <> emergency_received ->
    slot kind' (register emergency_received (Some 4%nat) self) = slot kind' self.
Proof.
  intros self response packet.
  exact (dispatch_to_registered_callback
           emergency_received self packet response 4%nat 5%nat
           eq_refl eq_refl eq_refl eq_refl).
Defined.

End ClientMore.

(** ** The connection and the reader thread *)

Module TransportProofs.
Import Slip Client Dispatcher Transport ReaderSpec SlipProofs ClientProofs.

(** *** Connecting and disconnecting *)

(** X16: [disconnect] may be repeated without effect; afterwards the client
    is not connected, the reader is as new, a turn of the read loop does
    nothing, and every command raises [ConnectionError].  It does not touch
    the pending requests: a caller that is still waiting is not woken, and
    runs into its timeout. *)
Theorem disconnect_is_final (self : Connection) :
  disconnect (disconnect self) = disconnect self /\
  is_connected (client (disconnect self)) = false /\
  _slip_reader (disconnect self) = new_reader /\
  (forall parse data, read_once parse (disconnect self) data = disconnect self) /\
  (forall to_device timeout inbound,
     snd (_send_command inbound (client (disconnect self)) to_device timeout)
     = inl (ConnectionError "Not connected to device")) /\
  _response_events (client (disconnect self)) = _response_events (client self) /\
  _pending_responses (client (disconnect self)) = _pending_responses (client self) /\
  (forall id ev timeout,
     events (client self) !! ev = Some false ->
     snd (_send_command_finish (client (disconnect self)) (id, ev, timeout))
     = inl (TimeoutError timeout)).
Proof.
  split; [done|]. split; [done|]. split; [done|]. split; [done|].
  split; [done|]. split; [done|]. split; [done|].
  intros id ev timeout Hflag. unfold _send_command_finish.
  cbn [disconnect client set_serial events]. by rewrite Hflag.
Qed.

(** X17: [connect] on a connected client does nothing, not even open the
    port.  Otherwise a failure to open leaves the client as it was, and a
    success installs the port and starts from an empty reader, so that the
    bytes of a frame cut off by an earlier disconnection never join those
    read afterwards; the id counter and the registrations carry over. *)
Theorem connect_starts_clean (self : Connection) (port : Serial) :
  (is_connected (client self) = true ->
   forall opened, connect opened self = inr self) /\
  (is_connected (client self) = false ->
   connect None self = inl SerialException /\
   exists self',
     connect (Some port) self = inr self' /\
     _serial (client self') = Some port /\
     _running self' = true /\
     _slip_reader self' = new_reader /\
     (forall data,
        feed (_slip_reader self') data = feed new_reader data) /\
     _packet_id (client self') = _packet_id (client self) /\
     _response_events (client self') = _response_events (client self) /\
     _pending_responses (client self') = _pending_responses (client self)).
Proof.
  unfold connect. split.
  - by intros ->.
  - intros ->. split; [done|]. eexists. split; [reflexivity|]. by repeat split.
Qed.

(** *** The read loop *)

Section ReadLoop.
Variable parse : bytes -> option SerialPacket.

Lemma deliver_serial frames : forall self,
  _serial (deliver parse self frames) = _serial self.
Proof.
  induction frames as [|data frames IH]; intros self; [done|].
  cbn [deliver fold_left]. fold (deliver parse).
  case_bool_decide; [by apply IH|].
  unfold deliver in IH. rewrite IH.
  by destruct (handle_packet_frame self (parse data)) as (_ & _ & -> & _).
Qed.

Lemma deliver_app self a b :
  deliver parse self (a ++ b) = deliver parse (deliver parse self a) b.
Proof. apply fold_left_app. Qed.

Lemma dispatch_ready_all buf inp run thread : forall pks self,
  dispatch_ready parse (length pks)
    {| client := self; _slip_reader := mkReader buf inp pks;
       _running := run; _reader_thread := thread |}
  = {| client := deliver parse self pks; _slip_reader := mkReader buf inp [];
       _running := run; _reader_thread := thread |}.
Proof.
  induction pks as [|p pks IH]; intros self; [done|].
  cbn [length dispatch_ready]. unfold has_packet, get_packet.
  cbn [_slip_reader _packets length client _running _reader_thread
       _buffer _in_packet].
  rewrite bool_decide_eq_true_2 by lia. by rewrite IH.
Qed.

Lemma read_once_eq self data :
  _running self = true -> is_Some (_serial (client self)) -> data <> [] ->
  read_once parse self (Some data)
  = {| client :=
         deliver parse (client self) (_packets (feed (_slip_reader self) data));
       _slip_reader :=
         {| _buffer := _buffer (feed (_slip_reader self) data);
            _in_packet := _in_packet (feed (_slip_reader self) data);
            _packets := [] |};
       _running := true; _reader_thread := _reader_thread self |}.
Proof.
  intros Hrun Hser Hdata. unfold read_once.
  rewrite Hrun, bool_decide_eq_true_2 by done. cbn [andb].
  rewrite bool_decide_eq_false_2 by done.
  destruct (feed (_slip_reader self) data) as [buf inp pks].
  by rewrite dispatch_ready_all.
Qed.

Lemma bytes_read_some data reads :
  bytes_read (Some data :: reads) = data ++ bytes_read reads.
Proof. reflexivity. Qed.

Lemma bytes_read_none reads : bytes_read (None :: reads) = bytes_read reads.
Proof. reflexivity. Qed.

Lemma read_loop_closed_form reads : forall self,
  _running self = true -> is_Some (_serial (client self)) ->
  _packets (_slip_reader self) = [] ->
  fold_left (read_once parse) reads self
  = {| client :=
         deliver parse (client self)
           (_packets (feed (_slip_reader self) (bytes_read reads)));
       _slip_reader :=
         {| _buffer := _buffer (feed (_slip_reader self) (bytes_read reads));
            _in_packet := _in_packet (feed (_slip_reader self) (bytes_read reads));
            _packets := [] |};
       _running := true; _reader_thread := _reader_thread self |}.
Proof.
  induction reads as [|r reads IH]; intros [cl [buf inp pks] run thread];
    cbn [_running client _slip_reader _packets _reader_thread];
    intros -> Hser ->.
  - done.
  - cbn [fold_left].
    destruct r as [data|]; [destruct (decide (data = [])) as [->|Hdata]|].
    + unfold read_once at 2. cbn [_running client andb].
      rewrite bool_decide_eq_true_2 by done. cbn [andb].
      rewrite bool_decide_eq_true_2 by done.
      rewrite IH by done. rewrite bytes_read_some. done.
    + rewrite read_once_eq by done.
      cbn [_running client _slip_reader _packets _reader_thread].
      rewrite IH; cbn [_running client _slip_reader _packets _reader_thread];
        [|done|by rewrite deliver_serial|done].
      rewrite bytes_read_some.
      rewrite (feed_app (mkReader buf inp []) data (bytes_read reads)).
      destruct (feed (mkReader buf inp []) data) as [buf' inp' pks'].
      cbn [_buffer _in_packet _packets].
      rewrite (feed_queue (bytes_read reads) buf' inp' pks').
      cbn [_buffer _in_packet _packets]. by rewrite deliver_app.
    + unfold read_once at 2. cbn [_running client andb].
      rewrite bool_decide_eq_true_2 by done. cbn [andb].
      rewrite IH by done. by rewrite bytes_read_none.
Qed.

(** X18: what the reader thread does to the client depends only on the
    bytes it has read, not on how the reads cut them up, nor on reads that
    returned nothing or raised in between: any two runs of the read loop
    over the same bytes hand the same frames to [_handle_packet] in the
    same order and end in the same state. *)
Theorem read_loop_ignores_chunking
    (self : Connection) (reads reads' : list (option bytes))
    (Hrun : _running self = true)
    (Hserial : is_Some (_serial (client self)))
    (Hqueue : _packets (_slip_reader self) = [])
    (Hsame : bytes_read reads = bytes_read reads') :
  fold_left (read_once parse) reads self
  = fold_left (read_once parse) reads' self /\
  client (fold_left (read_once parse) reads self)
  = deliver parse (client self)
      (_packets (feed (_slip_reader self) (bytes_read reads))).
Proof.
  rewrite !read_loop_closed_form by done. by rewrite Hsame.
Qed.

(** X19: an answer that comes in over the wire reaches the caller that
    waits for it: after [_send_command] has written its packet, one read
    returning the frame of a payload that parses to an envelope with the
    call's id makes the call return that envelope. *)
Theorem reply_on_the_wire_resolves_the_call
    (self : Connection) (to_device : ToDevice) (timeout : option Q)
    (data : bytes) (packet : SerialPacket) (response : FromDevice)
    (Hrun : _running self = true)
    (Hsent : can_write (client self))
    (Hwf : events_allocated (client self))
    (Hbuf : _buffer (_slip_reader self) = [])
    (Hqueue : _packets (_slip_reader self) = [])
    (Hdata : data <> [])
    (Hparse : parse data = Some packet)
    (Hfrom : from_device packet = Some response)
    (Hid : request_id response = (_packet_id (client self) + 1) mod 0xFFFFFFFF) :
  exists client1 waiting,
    _send_command_begin (client self) to_device timeout = (client1, inr waiting) /\
    let after_read :=
      read_once parse
        {| client := client1; _slip_reader := _slip_reader self;
           _running := _running self; _reader_thread := _reader_thread self |}
        (Some (slip_encode data)) in
    snd (_send_command_finish (client after_read) waiting) = inr response /\
    _packets (_slip_reader after_read) = [].
Proof.
  destruct (send_command_begin_ok (client self) to_device timeout Hsent)
    as (client1 & Hbegin & _ & Hreg & Hevs & _ & _ & _ & Hcan1).
  set (id := (_packet_id (client self) + 1) mod 0xFFFFFFFF) in *.
  set (ev := length (events (client self))) in *.
  exists client1, (id, ev, match timeout with Some t => t | None => _timeout (client self) end).
  split; [exact Hbegin|]. intros after_read. subst after_read.
  rewrite read_once_eq; cbn [_running client _slip_reader _reader_thread];
    [|done| |].
  2: { destruct Hcan1 as (s & -> & _). by eexists. }
  2: { rewrite slip_encode_frame. discriminate. }
  split; [|done]. cbn [client].
  destruct (_slip_reader self) as [buf inp pks]. cbn in Hbuf, Hqueue. subst.
  rewrite SlipMore.feed_encoded by done. cbn [_packets app].
  rewrite bool_decide_eq_false_2 by done.
  cbn [deliver fold_left]. rewrite bool_decide_eq_false_2 by done.
  rewrite Hparse.
  pose proof (ClientMore.handle_packet_reply id ev client1 (Some packet)) as Hreply.
  unfold reply_of in Hreply. rewrite Hfrom, bool_decide_eq_true_2 in Hreply by done.
  destruct Hreply as [Hflag Hstored].
  - by rewrite Hreg, lookup_insert_eq.
  - intros id' ev' Hlook Hne. rewrite Hreg, lookup_insert_ne in Hlook by done.
    apply Hwf in Hlook. subst ev. lia.
  - rewrite Hevs, length_app. simpl. lia.
  - unfold _send_command_finish. by rewrite Hflag, Hstored.
Qed.

End ReadLoop.

(** A frame read in two pieces with a failed read in between, and the same
    frame read at once. *)
Lemma read_loop_ignores_chunking_witness :
  let reads := [Some [SLIP_END; x01]; None; Some [x07; SLIP_END]] in
  let reads' := [Some [SLIP_END; x01; x07; SLIP_END]] in
  bytes_read reads = bytes_read reads' /\
  fold_left (read_once parse_answer) reads connected
  = fold_left (read_once parse_answer) reads' connected /\
  client (fold_left (read_once parse_answer) reads connected)
  = deliver parse_answer (client connected)
      (_packets (feed (_slip_reader connected) (bytes_read reads))).
Proof.
  intros reads reads'.
  assert (bytes_read reads = bytes_read reads') as Hsame by reflexivity.
  split; [exact Hsame|].
  apply (read_loop_ignores_chunking parse_answer connected reads reads').
  - reflexivity.
  - eexists. reflexivity.
  - reflexivity.
  - exact Hsame.
Defined.

(** [get_info] goes out with id 1, and the frame of the payload [01 07],
    which the stand-in parser reads as an answer to request 1, comes in. *)
Lemma reply_on_the_wire_resolves_the_call_witness :
  let response := {| request_id := 1; payload := Some result; body := [x07] |} in
  exists client1 waiting,
    _send_command_begin (client connected) get_info None = (client1, inr waiting) /\
    let after_read :=
      read_once parse_answer
        {| client := client1; _slip_reader := _slip_reader connected;
           _running := _running connected;
           _reader_thread := _reader_thread connected |}
        (Some (slip_encode [x01; x07])) in
    snd (_send_command_finish (client after_read) waiting) = inr response /\
    _packets (_slip_reader after_read) = [].
Proof.
  intros response.
  apply (reply_on_the_wire_resolves_the_call
           parse_answer connected get_info None [x01; x07]
           {| packet_id := 0; to_device := None; from_device := Some response |}
           response).
  - reflexivity.
  - eexists. repeat split; reflexivity.
  - intros id ev Hlook. cbn in Hlook. by rewrite lookup_empty in Hlook.
  - reflexivity.
  - reflexivity.
  - discriminate.
  - reflexivity.
  - reflexivity.
  - reflexivity.
Defined.

End TransportProofs.

(** ** More on the message chunker *)

Module MessagingMore.
Import Client Messaging ChunkingSpec FirmwareLimit MessagingProofs.
Local Open Scope nat_scope.
Local Arguments String.append : simpl nomatch.

(** *** The width of the part indicator *)

Lemma append_length (a b : string) :
  String.length (a ++ b) = String.length a + String.length b.
Proof. induction a as [|c a IH]; simpl; congruence. Qed.

Lemma string_of_uint_length d :
  String.length (NilEmpty.string_of_uint d) = Decimal.nb_digits d.
Proof. induction d; simpl; congruence. Qed.

Lemma str_length n :
  String.length (str n) = Decimal.nb_digits (DecimalNat.Unsigned.to_lu n).
Proof.
  unfold str. rewrite string_of_uint_length, DecimalNat.Unsigned.to_uint_alt.
  apply DecimalFacts.nb_digits_rev.
Qed.

Lemma to_lu_iter n r :
  n <> 0 ->
  DecimalNat.Unsigned.to_lu (10 * n + r)
  = Nat.iter r Decimal.Little.succ (Decimal.D0 (DecimalNat.Unsigned.to_lu n)).
Proof.
  intros Hn. induction r as [|r IH].
  - rewrite Nat.add_0_r. by apply DecimalNat.Unsigned.to_lu_tenfold.
  - replace (10 * n + S r) with (S (10 * n + r)) by lia.
    rewrite DecimalNat.Unsigned.to_lu_succ, IH. reflexivity.
Qed.

Lemma to_lu_digits_step n r :
  n <> 0 -> r <= 9 ->
  Decimal.nb_digits (DecimalNat.Unsigned.to_lu (10 * n + r))
  = S (Decimal.nb_digits (DecimalNat.Unsigned.to_lu n)).
Proof.
  intros Hn Hr. rewrite to_lu_iter by done.
  do 10 (destruct r as [|r]; [reflexivity|]). lia.
Qed.

Lemma to_lu_digits_small r :
  r <= 9 -> Decimal.nb_digits (DecimalNat.Unsigned.to_lu r) = 1.
Proof. intros Hr. do 10 (destruct r as [|r]; [reflexivity|]). lia. Qed.

(** A number below [10^k] is written with at most [k] digits. *)
Lemma digits_bound k : forall n,
  (N.of_nat n < 10 ^ N.of_nat k)%N ->
  Decimal.nb_digits (DecimalNat.Unsigned.to_lu n) <= Nat.max 1 k.
Proof.
  induction k as [|k IH]; intros n Hn.
  - assert (n = 0) as -> by (cbn in Hn; lia). reflexivity.
  - rewrite Nat2N.inj_succ, N.pow_succ_r' in Hn.
    pose proof (Nat.div_mod_eq n 10) as Hdiv.
    pose proof (Nat.mod_upper_bound n 10) as Hmod.
    set (q := n / 10) in *. set (r := n mod 10) in *.
    destruct (decide (q = 0)) as [Hq|Hq].
    + rewrite Hdiv, Hq, Nat.mul_0_r, Nat.add_0_l.
      rewrite to_lu_digits_small by lia. lia.
    + rewrite Hdiv, to_lu_digits_step by lia.
      assert (N.of_nat q < 10 ^ N.of_nat k)%N as Hqk by lia.
      specialize (IH q Hqk).
      destruct k as [|k]; [cbn in Hqk; lia|]. lia.
Qed.

(** Below a hundred million chunks, the text of every part is at most 180
    characters long. *)
Lemma part_request_fits text k part destination :
  (N.of_nat (chunk_count text) < 100000000)%N ->
  k < chunk_count text ->
  part_request text k = send_message_request destination part ->
  String.length part <= 180.
Proof.
  intros Hsize Hk [= _ <-].
  cbn [String.length]. rewrite append_length. cbn [String.length].
  rewrite append_length. cbn [String.length]. rewrite !str_length.
  unfold chunk. rewrite substring_length.
  assert (N.of_nat (k + 1) < 10 ^ N.of_nat 8)%N as H1
    by (change (10 ^ N.of_nat 8)%N with 100000000%N; lia).
  assert (N.of_nat (chunk_count text) < 10 ^ N.of_nat 8)%N as H2
    by (change (10 ^ N.of_nat 8)%N with 100000000%N; lia).
  apply digits_bound in H1, H2.
  change (Nat.max 1 8) with 8 in *. lia.
Qed.

Section Methods.
Context {Self : Type}.
Variable _send_command : Self -> ToDevice -> option Q -> Self * (exn + FromDevice).
Variable while_asleep : Self -> Q -> Self.

(** Whatever the calls of [_send_command] do, the loop sends nothing but
    parts of the text. *)
Lemma send_parts_sends_parts text timeout : forall n a self trace,
  a + n = chunk_count text ->
  exists new,
    snd (fst (send_parts _send_command while_asleep
                (map (fun k => (k, chunk text k)) (seq a n))
                (chunk_count text) timeout (self, trace)))
    = trace ++ new /\
    Forall (fun a => match a with
                     | SendCommand cmd _ =>
                       exists k, k < chunk_count text /\ cmd = part_request text k
                     | Sleep _ => True
                     end) new.
Proof.
  induction n as [|n IH]; intros a self trace Han.
  - exists []. cbn. by rewrite app_nil_r.
  - cbn [seq map Messaging.send_parts].
    fold (part_request text a). unfold bind at 1. unfold send_command at 1.
    assert (exists k, k < chunk_count text /\ part_request text a = part_request text k)
      as Hpart by (exists a; split; [lia|done]).
    destruct (_send_command self (part_request text a) timeout) as [self' [e|r]].
    + exists [SendCommand (part_request text a) timeout]. cbn [fst snd].
      split; [done|]. by repeat constructor.
    + destruct (a <? chunk_count text - 1).
      * unfold bind at 1, time_sleep at 1.
        destruct (IH (S a) (while_asleep self' 0.3%Q)
                     ((trace ++ [SendCommand (part_request text a) timeout])
                      ++ [Sleep 0.3%Q])) as (new & -> & Hnew); [lia|].
        exists (SendCommand (part_request text a) timeout :: Sleep 0.3%Q :: new).
        split; [by rewrite <- !app_assoc|]. by repeat constructor.
      * unfold bind at 1, ret at 1.
        destruct (IH (S a) self'
                     (trace ++ [SendCommand (part_request text a) timeout]))
          as (new & -> & Hnew); [lia|].
        exists (SendCommand (part_request text a) timeout :: new).
        split; [by rewrite <- !app_assoc|]. by repeat constructor.
Qed.

(** X20: [send_message] never hands [_send_command] a text of more than 180
    characters, with or without [auto_split] and whatever the device
    answers, for every text that makes fewer than a hundred million chunks:
    the 160 characters of a chunk leave room for its part indicator. *)
Theorem sent_texts_fit_the_limit
    (text : string) (priority timeout : option Q) (auto_split : bool)
    (self : Self) (trace : list io)
    (Hsize : (N.of_nat (chunk_count text) < 100000000)%N) :
  exists new,
    snd (fst (send_message _send_command while_asleep
                text priority timeout auto_split (self, trace)))
    = trace ++ new /\
    Forall (fits 180) new.
Proof.
  unfold Messaging.send_message.
  destruct (String.length text <=? 180) eqn:Hshort.
  - apply Nat.leb_le in Hshort. unfold bind, send_command, ret.
    destruct (_send_command self _ timeout) as [self' [e|r]]; cbn [fst snd].
    all: eexists; split; [done|].
    all: apply Forall_cons; split; [|by apply Forall_nil].
    all: by intros ? ? ? [= _ <- _].
  - destruct auto_split; cbn [negb].
    + unfold _send_split_message. cbv zeta.
      rewrite chunks_eq, length_map, length_seq, enumerate_map.
      destruct (send_parts_sends_parts text timeout (chunk_count text) 0 self trace)
        as (new & Hnew & Hparts); [lia|].
      exists new. unfold bind.
      destruct (send_parts _ _ _ _ _ _) as [[self' trace'] [e|[]]];
        cbn [fst snd] in *.
      all: split; [done|].
      all: eapply Forall_impl; [exact Hparts|].
      all: intros [cmd t|secs]; [|by intros _ ? ? ? [=]].
      all: intros (k & Hk & ->) destination part t' Heq.
      all: apply (part_request_fits text k part destination); [done..|].
      all: congruence.
    + exists []. cbn. by rewrite app_nil_r.
Qed.

End Methods.

(** The 400 characters of the example, the second answer lost. *)
Lemma sent_texts_fit_the_limit_witness :
  let self := Client.connect (new_client DEFAULT_TIMEOUT) in
  (N.of_nat (chunk_count text400) < 100000000)%N /\
  exists new,
    snd (fst (send_message (lossy_command 2) idle
                text400 None None true (self, [])))
    = [] ++ new /\
    Forall (fits 180) new.
Proof.
  intros self.
  assert (N.of_nat (chunk_count text400) < 100000000)%N as Hsize by reflexivity.
  split; [exact Hsize|].
  exact (sent_texts_fit_the_limit
           (lossy_command 2) idle text400 None None true self [] Hsize).
Defined.

End MessagingMore.

(** ** What the reader thread leaves alone *)

Module ReaderThreadProofs.
Import Slip Client Transport ReaderThread ClientProofs.

Lemma only_handled_refl self : only_handled self self.
Proof. repeat split. exists []. by rewrite app_nil_r. Qed.

Lemma only_handled_trans a b c :
  only_handled a b -> only_handled b c -> only_handled a c.
Proof.
  intros (? & ? & ? & ? & ? & ? & ? & ? & ? & ? & calls & Hcalls)
         (? & ? & ? & ? & ? & ? & ? & ? & ? & ? & calls' & Hcalls').
  repeat split; try congruence.
  exists (calls ++ calls'). by rewrite Hcalls', Hcalls, app_assoc.
Qed.

Lemma handle_event_only_handled self response :
  only_handled self (_handle_event self response).
Proof.
  unfold _handle_event.
  destruct (payload response) as [[]|]; try apply only_handled_refl.
  all: match goal with |- context [match ?cb with _ => _ end] => destruct cb end.
  all: try apply only_handled_refl.
  all: repeat split; by eexists.
Qed.

Lemma handle_packet_only_handled self parsed :
  only_handled self (_handle_packet self parsed).
Proof.
  unfold _handle_packet.
  destruct parsed as [packet|]; [|apply only_handled_refl].
  destruct (from_device packet) as [response|]; [|apply only_handled_refl].
  destruct (_response_events self !! request_id response).
  - repeat split; cbn; [by rewrite length_insert|].
    exists []. by rewrite app_nil_r.
  - apply handle_event_only_handled.
Qed.

Section ReadLoop.
Variable parse : bytes -> option SerialPacket.

Lemma dispatch_ready_only_handled n : forall self,
  only_handled (client self) (client (dispatch_ready parse n self)) /\
  _running (dispatch_ready parse n self) = _running self /\
  _reader_thread (dispatch_ready parse n self) = _reader_thread self.
Proof.
  induction n as [|n IH]; intros self.
  - split; [apply only_handled_refl|done].
  - cbn [dispatch_ready].
    destruct (has_packet (_slip_reader self));
      [|split; [apply only_handled_refl|done]].
    destruct (get_packet (_slip_reader self)) as [packet_data reader].
    match goal with
    | |- context [dispatch_ready parse n ?next] =>
      destruct (IH next) as (Hclient & Hrun & Hthread);
      cbn [client _running _reader_thread] in *
    end.
    split; [|by split].
    eapply only_handled_trans; [|exact Hclient].
    destruct packet_data as [data|]; [|apply only_handled_refl].
    case_bool_decide; [apply only_handled_refl|].
    apply handle_packet_only_handled.
Qed.

Lemma read_once_only_handled self data :
  only_handled (client self) (client (read_once parse self data)) /\
  _running (read_once parse self data) = _running self /\
  _reader_thread (read_once parse self data) = _reader_thread self.
Proof.
  unfold read_once.
  destruct (_running self && bool_decide (is_Some (_serial (client self))));
    [|split; [apply only_handled_refl|done]].
  destruct data as [data|]; [|split; [apply only_handled_refl|done]].
  case_bool_decide; [split; [apply only_handled_refl|done]|].
  match goal with
  | |- context [dispatch_ready parse ?n ?next] =>
    destruct (dispatch_ready_only_handled n next) as (Hclient & Hrun & Hthread)
  end.
  by cbn [client _running _reader_thread] in *.
Qed.

(** X22: whatever it reads, the reader thread never registers or
    deregisters a request, never moves the id counter, never touches the
    port, the default timeout or the callbacks, and never stops itself: it
    only stores responses, fires events that exist already, and adds to the
    record of callback invocations. *)
Theorem read_loop_only_handles (self : Connection) (reads : list (option bytes)) :
  only_handled (client self) (client (fold_left (read_once parse) reads self)) /\
  _running (fold_left (read_once parse) reads self) = _running self /\
  _reader_thread (fold_left (read_once parse) reads self) = _reader_thread self.
Proof.
  revert self. induction reads as [|data reads IH]; intros self.
  - split; [apply only_handled_refl|done].
  - cbn [fold_left].
    destruct (IH (read_once parse self data)) as (Hclient & Hrun & Hthread).
    destruct (read_once_only_handled self data) as (Hclient1 & Hrun1 & Hthread1).
    split; [by eapply only_handled_trans|]. split; congruence.
Qed.

End ReadLoop.

End ReaderThreadProofs.

(** ** The event log of the debug interface *)

Module DebugInterfaceProofs.
Import DebugInterface.
Local Open Scope nat_scope.

Lemma log_event_newest timestamp message level events :
  length events <= max_log_lines ->
  let all := events ++ [entry timestamp message level] in
  log_event timestamp message level events
  = drop (length all - max_log_lines) all /\
  length (log_event timestamp message level events) <= max_log_lines.
Proof.
  intros Hlen all. unfold log_event. fold all.
  assert (length all = S (length events)) as Hall
    by (subst all; rewrite length_app; simpl; lia).
  destruct (max_log_lines <? length all) eqn:Hfull.
  - apply Nat.ltb_lt in Hfull.
    replace (length all - max_log_lines) with 1 by lia.
    destruct all as [|x all']; [done|]. cbn [List.tl drop length] in *.
    split; [by rewrite drop_0|lia].
  - apply Nat.ltb_ge in Hfull.
    replace (length all - max_log_lines) with 0 by lia.
    by rewrite drop_0.
Qed.

Lemma log_events_newest calls : forall events,
  length events <= max_log_lines ->
  let all := events ++ entries calls in
  log_events calls events = drop (length all - max_log_lines) all /\
  length (log_events calls events) <= max_log_lines.
Proof.
  induction calls as [|[[timestamp message] level] calls IH]; intros events Hlen.
  - cbn. rewrite app_nil_r.
    replace (length events - max_log_lines) with 0 by lia. by rewrite drop_0.
  - change (log_events ((timestamp, message, level) :: calls) events)
      with (log_events calls (log_event timestamp message level events)).
    change (entries ((timestamp, message, level) :: calls))
      with (entry timestamp message level :: entries calls).
    destruct (log_event_newest timestamp message level events Hlen)
      as [Hstep Hlen'].
    cbv zeta in Hstep.
    destruct (IH _ Hlen') as [Hrest Hbound]. cbv zeta in Hrest.
    split; [|done]. rewrite Hrest, Hstep.
    set (e := entry timestamp message level) in *.
    set (rest := entries calls) in *.
    replace (events ++ e :: rest) with ((events ++ [e]) ++ rest)
      by (by rewrite <- app_assoc).
    assert (length (events ++ [e]) = S (length events)) as Hone
      by (rewrite length_app; simpl; lia).
    destruct (decide (length events = max_log_lines)) as [Hfull|Hroom].
    + replace (length (events ++ [e]) - max_log_lines) with 1 by lia.
      destruct (events ++ [e]) as [|x kept] eqn:Hkept; [done|].
      cbn [drop length app] in *. rewrite drop_0.
      rewrite !length_app.
      replace (S (length kept + length rest) - max_log_lines)
        with (S (length kept + length rest - max_log_lines)) by lia.
      done.
    + replace (length (events ++ [e]) - max_log_lines) with 0 by lia.
      by rewrite drop_0.
Qed.

(** X21: however many events are logged, the event log holds the newest
    hundred of them in order (all of them while there are fewer), and
    [show_events] prints the newest thirty that were ever logged. *)
Theorem event_log_keeps_newest (calls : list (string * string * string)) :
  log_events calls [] = drop (length (entries calls) - 100) (entries calls) /\
  length (log_events calls []) <= 100 /\
  shown (log_events calls [])
  = drop (length (entries calls) - 30) (entries calls).
Proof.
  destruct (log_events_newest calls []) as [Hlog Hlen]; [cbn; lia|].
  cbn [app] in Hlog. change max_log_lines with 100 in *.
  split; [done|]. split; [done|].
  unfold shown. rewrite Hlog, length_drop, drop_drop. f_equal. lia.
Qed.

End DebugInterfaceProofs.
